(** * The document sorter: a shallow embedding of its pipeline

    The development follows the Python sources module by module:
    [config.py], [file_manager.py], [extractor.py], [monitor.py] and
    [main.py].  Python strings are lists of characters, paths are lists of
    path components, the file system is a finite description of which paths
    hold a file or a directory, and every function with an effect runs in a
    small state-and-exception monad that also records the calls made to the
    loggers and to the external engines. *)

From Stdlib Require Import List Ascii Bool Arith ZArith Lia.
From Stdlib Require String DecimalNat DecimalString.
Import ListNotations.
Import String.StringSyntax.
Delimit Scope string_scope with string.

Local Open Scope char_scope.
Local Open Scope nat_scope.
Local Open Scope list_scope.

(** ** Python strings *)

(** A Python [str] is modelled as the list of its characters.  Characters
    are the code points below 256. *)
Definition str := list ascii.

(** String literals are written with [lit]. *)
Definition lit (s : String.string) : str := String.list_ascii_of_string s.
Arguments lit s%_string.

(** The double quote character. *)
Definition dquote : ascii := ascii_of_nat 34.

Definition str_eqb (a b : str) : bool :=
  if list_eq_dec ascii_dec a b then true else false.

(** [c in chars] *)
Definition char_in (chars : str) (c : ascii) : bool :=
  existsb (Ascii.eqb c) chars.

(** [s.replace(old, new)] for one-character [old] and [new]. *)
Definition str_replace (old new : ascii) (s : str) : str :=
  map (fun c => if Ascii.eqb c old then new else c) s.

(** [s.lstrip(chars)], [s.rstrip(chars)] and [s.strip(chars)] *)
Fixpoint str_lstrip (chars : str) (s : str) : str :=
  match s with
  | [] => []
  | c :: s' => if char_in chars c then str_lstrip chars s' else s
  end.

Definition str_rstrip (chars : str) (s : str) : str :=
  rev (str_lstrip chars (rev s)).

Definition str_strip (chars : str) (s : str) : str :=
  str_rstrip chars (str_lstrip chars s).

(** The characters [str.isspace] accepts, among the code points below 256:
    tab, line feed, vertical tab, form feed, carriage return, the four
    separators 28 to 31, space, next line (133) and no-break space (160). *)
Definition whitespace : str :=
  map ascii_of_nat [9; 10; 11; 12; 13; 28; 29; 30; 31; 32; 133; 160].

Definition is_whitespace (c : ascii) : bool := char_in whitespace c.

(** [s.strip()] with no argument strips white space. *)
Definition str_strip_ws (s : str) : str := str_strip whitespace s.

(** [s.lower()]: the letters A to Z and the Latin-1 capitals 192 to 222
    (without the multiplication sign 215) move up by 32. *)
Definition char_lower (c : ascii) : ascii :=
  let n := nat_of_ascii c in
  if ((65 <=? n) && (n <=? 90)) ||
     ((192 <=? n) && (n <=? 222) && negb (n =? 215))
  then ascii_of_nat (n + 32) else c.

Definition str_lower (s : str) : str := map char_lower s.

(** [s.startswith(prefix)] and [s.endswith(suffix)] *)
Fixpoint str_startswith (s prefix : str) : bool :=
  match prefix, s with
  | [], _ => true
  | p :: prefix', c :: s' => Ascii.eqb c p && str_startswith s' prefix'
  | _ :: _, [] => false
  end.

Definition str_endswith (s suffix : str) : bool :=
  str_startswith (rev s) (rev suffix).

(** [str(n)] for a natural number, as an f-string renders a counter. *)
Definition str_of_nat (n : nat) : str :=
  String.list_ascii_of_string
    (DecimalString.NilEmpty.string_of_uint (Nat.to_uint n)).

(** ** pathlib: pure paths *)

(** A path is the list of its components below the root; relative names
    are read from the root.  [Path_of_str] is [Path(s)]: it splits at the
    separator and drops empty and single-dot components. *)
Definition Path := list str.

(** [s.split(sep)] for a one-character separator. *)
Fixpoint str_split (sep : ascii) (s : str) : list str :=
  match s with
  | [] => [[]]
  | c :: s' =>
      if Ascii.eqb c sep then [] :: str_split sep s'
      else match str_split sep s' with
           | [] => [[c]]
           | w :: ws => (c :: w) :: ws
           end
  end.

Definition is_real_component (c : str) : bool :=
  match c with
  | [] => false
  | _ :: _ => negb (str_eqb c (lit "."))
  end.

Definition Path_of_str (s : str) : Path :=
  filter is_real_component (str_split "/" s).

(** [p / s]: an absolute right operand replaces the left one. *)
Definition joinpath (p : Path) (s : str) : Path :=
  if str_startswith s (lit "/") then Path_of_str s else p ++ Path_of_str s.

(** [str(p)] *)
Definition str_of_path (p : Path) : str :=
  match p with
  | [] => lit "/"
  | _ :: _ => concat (map (fun c => "/" :: c) p)
  end.

(** [p.name] and [p.parent] *)
Definition path_name (p : Path) : str := last p [].

Definition path_parent (p : Path) : Path := removelast p.

(** [s.rfind(c)]: the index of the last occurrence, if there is one. *)
Fixpoint str_rfind (c : ascii) (s : str) : option nat :=
  match s with
  | [] => None
  | x :: s' =>
      match str_rfind c s' with
      | Some i => Some (S i)
      | None => if Ascii.eqb x c then Some 0 else None
      end
  end.

(** [p.suffix]: the part of the name from its last dot on, unless that dot
    is the first or the last character of the name. *)
Definition path_suffix (p : Path) : str :=
  let name := path_name p in
  match str_rfind "." name with
  | Some i =>
      if (0 <? i) && (i + 1 <? length name) then skipn i name else []
  | None => []
  end.

Definition path_eqb (p q : Path) : bool :=
  if list_eq_dec (list_eq_dec ascii_dec) p q then true else false.

(** [strip_prefix p q] is [Some r] when [q = p ++ r]. *)
Fixpoint strip_prefix (p q : Path) : option Path :=
  match p, q with
  | [], _ => Some q
  | _ :: _, [] => None
  | a :: p', b :: q' =>
      if str_eqb a b then strip_prefix p' q' else None
  end.

Definition is_under (p q : Path) : bool :=
  match strip_prefix p q with Some _ => true | None => false end.

(** ** The file system *)

Inductive Node :=
| File (content : str)
| Dir.

(** The file system lists the paths in use, in the order a directory
    listing reports them; the first entry of a path is the one in force. *)
Definition FS := list (Path * Node).

Fixpoint fs_assoc (fs : FS) (p : Path) : option Node :=
  match fs with
  | [] => None
  | (q, n) :: fs' => if path_eqb q p then Some n else fs_assoc fs' p
  end.

(** The root is always there, and is a directory. *)
Definition fs_lookup (fs : FS) (p : Path) : option Node :=
  match p with
  | [] => Some Dir
  | _ :: _ => fs_assoc fs p
  end.

Definition fs_exists (fs : FS) (p : Path) : bool :=
  match fs_lookup fs p with Some _ => true | None => false end.

Definition fs_is_file (fs : FS) (p : Path) : bool :=
  match fs_lookup fs p with Some (File _) => true | _ => false end.

Definition fs_is_dir (fs : FS) (p : Path) : bool :=
  match fs_lookup fs p with Some Dir => true | _ => false end.

Definition fs_remove (fs : FS) (p : Path) : FS :=
  filter (fun e => negb (path_eqb (fst e) p)) fs.

Definition fs_add (fs : FS) (p : Path) (n : Node) : FS :=
  fs_remove fs p ++ [(p, n)].

(** The entries of directory [p], as [p.iterdir()] yields them. *)
Definition fs_iterdir (fs : FS) (p : Path) : list Path :=
  map fst
    (filter (fun e => match fst e with
                      | [] => false
                      | _ :: _ => path_eqb (path_parent (fst e)) p
                      end) fs).

(** Moving the tree at [src] to [dst]: the entry at [dst] is replaced and
    every entry at or below [src] is re-rooted at [dst]. *)
Definition fs_rename (fs : FS) (src dst : Path) : FS :=
  map (fun e => match strip_prefix src (fst e) with
                | Some r => (dst ++ r, snd e)
                | None => e
                end)
      (filter (fun e => is_under src (fst e) || negb (path_eqb (fst e) dst))
              fs).

(** ** Exceptions *)

Inductive ExcClass :=
| FileNotFoundError
| FileExistsError
| NotADirectoryError
| IsADirectoryError
| ShutilError
| EngineError.

(** Every exception of the model is an instance of Python's [Exception]. *)
Inductive Exception := Exc (cls : ExcClass) (msg : str).

Definition exc_str (e : Exception) : str :=
  match e with Exc _ msg => msg end.

(** [open(p)]: the bytes of the file at [p]. *)
Definition fs_open (fs : FS) (p : Path) : Exception + str :=
  match fs_lookup fs p with
  | Some (File content) => inr content
  | Some Dir => inl (Exc IsADirectoryError (str_of_path p))
  | None => inl (Exc FileNotFoundError (str_of_path p))
  end.

(** [p.mkdir(parents=True, exist_ok=True)] and [os.makedirs(p,
    exist_ok=True)]: every missing ancestor is created, from the root
    down; a file in the way is an error. *)
Fixpoint fs_mkdir_from (fs : FS) (done_ : Path) (todo : list str)
  : Exception + FS :=
  match todo with
  | [] => inr fs
  | c :: rest =>
      let p := done_ ++ [c] in
      match fs_lookup fs p with
      | Some Dir => fs_mkdir_from fs p rest
      | Some (File _) =>
          inl (Exc (match rest with
                    | [] => FileExistsError
                    | _ :: _ => NotADirectoryError
                    end) (str_of_path p))
      | None => fs_mkdir_from (fs_add fs p Dir) p rest
      end
  end.

Definition fs_makedirs (fs : FS) (p : Path) : Exception + FS :=
  fs_mkdir_from fs [] p.

(** [shutil.move(src, dst)]: a move into an existing directory keeps the
    source's name and refuses to replace anything there; otherwise the
    source is renamed to [dst], replacing a file that is there.  The
    result is the path the source now has. *)
Definition fs_move (fs : FS) (src dst : Path) : Exception + (Path * FS) :=
  match fs_lookup fs src with
  | None => inl (Exc FileNotFoundError (str_of_path src))
  | Some node =>
      let real_dst :=
        if fs_is_dir fs dst && negb (path_eqb src dst)
        then dst ++ [path_name src] else dst in
      if fs_is_dir fs dst && negb (path_eqb src dst)
         && fs_exists fs real_dst
      then inl (Exc ShutilError (str_of_path real_dst))
      else if negb (fs_is_dir fs (path_parent real_dst))
      then inl (Exc FileNotFoundError (str_of_path real_dst))
      else match node with
           | File _ => inr (real_dst, fs_rename fs src real_dst)
           | Dir =>
               if path_eqb src real_dst then inr (real_dst, fs)
               else if is_under src real_dst || fs_exists fs real_dst
               then inl (Exc ShutilError (str_of_path real_dst))
               else inr (real_dst, fs_rename fs src real_dst)
           end
  end.

(** ** Events, the world and the monad *)

Inductive Logger := L_root | L_main | L_extractor | L_file_manager | L_monitor.

Inductive Level := DEBUG | INFO | WARNING | ERROR.

(** Modelled from the spec: [analyzer.py] is not among the sources;
    [DocumentMetadata] is the classifier's answer, a category label and a
    suggested file name without extension. *)
Record DocumentMetadata := mkMetadata {
  category : str;
  filename : str
}.

(** A rendered page or a loaded picture, as the OCR engine receives it. *)
Definition Image := str.

(** What a run leaves behind: the records handed to the loggers, the
    entries into the pipeline's own stages and the calls to the external
    engines and to the operating system. *)
Inductive Event :=
| Log (logger : Logger) (level : Level) (msg : str)
| Call_process_file (filepath : Path)
| Call_extract_content (filepath : Path)
| Call_extract_pdf_text (filepath : Path)
| Call_extract_via_ocr (filepath : Path)
| Call_move_file (source_path : Path)
| Call_monitor_run
| Call_PdfReader (filepath : Path)
| Call_extract_text (page : nat)
| Call_convert_from_path (filepath : Path)
| Call_Image_open (filepath : Path)
| Call_image_to_string (image : nat)
| Call_analyze_document (content : str)
| Call_check_connection
| Call_FileHandler (log_file : str)
| Call_mkdir (p : Path)
| Call_shutil_move (src dst : Path)
| Call_Observer_start (inbox : Path)
| Call_Observer_stop
| Call_sleep (millis : Z).

(** The state of a run: the file system and the events so far, the
    latest first. *)
Record World := mkWorld {
  fs : FS;
  trace : list Event
}.

Inductive Outcome (A : Type) :=
| Return (a : A)
| Raise (e : Exception)
| Diverge.
Arguments Return {A} a.
Arguments Raise {A} e.
Arguments Diverge {A}.

Definition M (A : Type) := World -> Outcome A * World.

Definition ret {A} (a : A) : M A := fun w => (Return a, w).

Definition bind {A B} (m : M A) (k : A -> M B) : M B :=
  fun w =>
    match m w with
    | (Return a, w') => k a w'
    | (Raise e, w') => (Raise e, w')
    | (Diverge, w') => (Diverge, w')
    end.

Definition raise {A} (e : Exception) : M A := fun w => (Raise e, w).

Definition diverge {A} : M A := fun w => (Diverge, w).

(** [try: m  except Exception as e: h e] *)
Definition try_except {A} (m : M A) (h : Exception -> M A) : M A :=
  fun w =>
    match m w with
    | (Raise e, w') => h e w'
    | r => r
    end.

Definition emit (e : Event) : M unit :=
  fun w => (Return tt, mkWorld (fs w) (e :: trace w)).

Definition log (l : Logger) (lv : Level) (msg : str) : M unit :=
  emit (Log l lv msg).

Definition get_fs : M FS := fun w => (Return (fs w), w).

Definition put_fs (f : FS) : M unit :=
  fun w => (Return tt, mkWorld f (trace w)).

(** A call that the trace records. *)
Definition call {A} (e : Event) (m : M A) : M A :=
  fun w => m (mkWorld (fs w) (e :: trace w)).

(** The result of an external call: returned or raised. *)
Definition lift {A} (r : Exception + A) : M A :=
  match r with
  | inl e => raise e
  | inr a => ret a
  end.

Declare Scope monad_scope.
Delimit Scope monad_scope with monad.
Notation "x <- m ;; k" := (bind m (fun x => k))
  (at level 61, m at next level, right associativity) : monad_scope.
Notation "m ;; k" := (bind m (fun _ => k))
  (at level 61, right associativity) : monad_scope.
Local Open Scope monad_scope.

(** [p.exists()], [p.is_file()], [p.is_dir()] *)
Definition path_exists (p : Path) : M bool :=
  f <- get_fs ;; ret (fs_exists f p).

Definition path_is_file (p : Path) : M bool :=
  f <- get_fs ;; ret (fs_is_file f p).

Definition path_is_dir (p : Path) : M bool :=
  f <- get_fs ;; ret (fs_is_dir f p).

(** [p.mkdir(parents=True, exist_ok=True)] *)
Definition path_mkdir (p : Path) : M unit :=
  emit (Call_mkdir p) ;;
  f <- get_fs ;;
  f' <- lift (fs_makedirs f p) ;;
  put_fs f'.

(** [shutil.move(str(src), str(dst))] *)
Definition shutil_move (src dst : Path) : M Path :=
  emit (Call_shutil_move src dst) ;;
  f <- get_fs ;;
  r <- lift (fs_move f src dst) ;;
  put_fs (snd r) ;;
  ret (fst r).

(** ** config.py *)

(** The settings [Config] reads from the environment when the module is
    loaded.  [MIN_CONTENT_LENGTH] is any integer the environment gives;
    the stabilization delay is kept in milliseconds. *)
Record Config := mkConfig {
  INBOX_PATH : str;
  TARGET_ROOT : str;
  OLLAMA_URL : str;
  MODEL_NAME : str;
  MIN_CONTENT_LENGTH : Z;
  OCR_LANGUAGES : str;
  LOG_LEVEL : str;
  LOG_FILE : str;
  FILE_STABILIZATION_DELAY : Z
}.

(** [Config.SUPPORTED_EXTENSIONS] *)
Definition SUPPORTED_EXTENSIONS : list str :=
  [lit ".pdf"; lit ".jpg"; lit ".png"; lit ".jpeg"].


(** [x in xs] for strings. *)
Definition str_in (x : str) (xs : list str) : bool :=
  existsb (str_eqb x) xs.

(** ** The external collaborators *)

(** A creation event of the watched directory, with what the outside
    world has put at the path by the time the event is delivered. *)
Record FileSystemEvent := mkEvent {
  is_directory : bool;
  src_path : str;
  created : Node
}.

(** The libraries and services the program calls.  The PDF reader answers
    with the pages of a document, each of which yields its text or fails;
    the OCR engine reads one image; the analyzer and its connectivity
    probe stand for [analyzer.py]; [live_events] are the creation events
    the observer delivers before the user interrupts the program. *)
Record Externals := mkExternals {
  PdfReader : str -> Exception + list (Exception + str);
  convert_from_path : str -> Exception + list Image;
  Image_open : str -> Exception + Image;
  image_to_string : Image -> str -> Exception + str;
  analyze_document : str -> Exception + DocumentMetadata;
  check_connection : bool;
  FileHandler : str -> Exception + unit;
  Observer_start : Path -> Exception + unit;
  live_events : list FileSystemEvent
}.

(** ** The objects of the program *)

Record ContentExtractor := mkContentExtractor {
  ocr_languages : str;
  min_content_length : Z
}.

Record FileSystemManager := mkFileSystemManager {
  root_dir : Path
}.

Record DocumentProcessor := mkDocumentProcessor {
  extractor : ContentExtractor;
  file_manager : FileSystemManager
}.

Record DirectoryMonitor := mkDirectoryMonitor {
  inbox_path : Path;
  process_callback : option (Path -> M bool)
}.

(** A [try] block whose local variable outlives an exception is written
    as a computation that returns the variable together with the
    exception that interrupted the block, if one did. *)
Definition Interrupted (S : Type) : Type := (S * option Exception)%type.

Definition try_keeping {S} (initial : S) (body : M (Interrupted S))
  : M (Interrupted S) :=
  try_except body (fun e => ret (initial, Some e)).

Definition newline : ascii := ascii_of_nat 10.

Section Program.

Variable cfg : Config.
Variable ext : Externals.

(** *** config.py: the class methods *)

(** [Config.validate] *)
Definition Config_validate : M bool :=
  let required_paths := [INBOX_PATH cfg; TARGET_ROOT cfg] in
  (fix loop (paths : list str) : M bool :=
     match paths with
     | [] => ret true
     | path :: rest =>
         let parent := path_parent (Path_of_str path) in
         ex <- path_exists parent ;;
         if negb ex then ret false else loop rest
     end) required_paths.

(** [Config.ensure_directories] *)
Definition Config_ensure_directories : M unit :=
  path_mkdir (Path_of_str (INBOX_PATH cfg)) ;;
  path_mkdir (Path_of_str (TARGET_ROOT cfg)).

(** *** file_manager.py *)

(** [FileSystemManager.__init__] *)
Definition FileSystemManager_init (root : str) : M FileSystemManager :=
  let self := mkFileSystemManager (Path_of_str root) in
  log L_file_manager INFO
      (lit "FileSystemManager initialized with root: "
       ++ str_of_path (root_dir self)) ;;
  ret self.

(** The list [invalid_chars] of [_sanitize_path_component]: less-than,
    greater-than, colon, double quote, vertical bar, question mark and
    asterisk. *)
Definition invalid_chars : list ascii :=
  ["<"; ">"; ":"; dquote; "|"; "?"; "*"]%char.

(** [FileSystemManager._sanitize_path_component] *)
Definition _sanitize_path_component (name : str) : str :=
  let safe_name := str_replace "\" "_" (str_replace "/" "_" name) in
  let safe_name :=
    fold_left (fun acc char => str_replace char "_" acc)
              invalid_chars safe_name in
  let safe_name := str_strip (lit ". ") safe_name in
  match safe_name with
  | [] => lit "Unnamed"
  | _ :: _ => safe_name
  end.

(** [FileSystemManager._prepare_target_directory] *)
Definition _prepare_target_directory (self : FileSystemManager)
    (category : str) : M Path :=
  let safe_category := _sanitize_path_component category in
  let target_dir := joinpath (root_dir self) safe_category in
  path_mkdir target_dir ;;
  log L_file_manager DEBUG
      (lit "Target directory prepared: " ++ str_of_path target_dir) ;;
  ret target_dir.

(** The [while] loop of [_resolve_target_path], on the pair of its two
    variables.  [fuel] bounds the number of times the loop condition is
    evaluated. *)
Fixpoint resolve_loop (fuel : nat) (target_dir : Path)
    (safe_filename extension : str) (target_path : Path) (counter : nat)
  : M (Path * nat) :=
  match fuel with
  | 0 => diverge
  | S fuel' =>
      ex <- path_exists target_path ;;
      if ex then
        let target_path :=
          joinpath target_dir
            (safe_filename ++ lit "_" ++ str_of_nat counter ++ extension) in
        let counter := counter + 1 in
        if 1000 <? counter then
          log L_file_manager WARNING
              (lit "Unusually high counter for filename: " ++ safe_filename) ;;
          ret (target_path, counter)
        else
          resolve_loop fuel' target_dir safe_filename extension
                       target_path counter
      else ret (target_path, counter)
  end.

(** [FileSystemManager._resolve_target_path] *)
Definition _resolve_target_path (self : FileSystemManager)
    (target_dir : Path) (filename extension : str) : M Path :=
  let safe_filename := _sanitize_path_component filename in
  let target_path := joinpath target_dir (safe_filename ++ extension) in
  let counter := 1 in
  r <- resolve_loop 1000 target_dir safe_filename extension
                    target_path counter ;;
  let target_path := fst r in
  let counter := snd r in
  (if 1 <? counter then
     log L_file_manager DEBUG
         (lit "Filename conflict resolved with counter: "
          ++ str_of_nat (counter - 1))
   else ret tt) ;;
  ret target_path.

(** [FileSystemManager.move_file] *)
Definition move_file (self : FileSystemManager) (source_path : Path)
    (metadata : DocumentMetadata) : M (option Path) :=
  ex <- path_exists source_path ;;
  if negb ex then
    log L_file_manager ERROR
        (lit "Source file does not exist: " ++ str_of_path source_path) ;;
    ret None
  else
    try_except
      (target_dir <- _prepare_target_directory self (category metadata) ;;
       target_path <- _resolve_target_path self target_dir
                        (filename metadata) (path_suffix source_path) ;;
       shutil_move source_path target_path ;;
       log L_file_manager INFO
           (lit "File moved successfully: " ++ path_name source_path
            ++ lit " -> " ++ str_of_path target_path) ;;
       ret (Some target_path))
      (fun e =>
         log L_file_manager ERROR
             (lit "Failed to move file " ++ path_name source_path
              ++ lit ": " ++ exc_str e) ;;
         ret None).

(** [FileSystemManager.validate_source_file] *)
Definition validate_source_file (self : FileSystemManager)
    (filepath : Path) : M bool :=
  if str_startswith (path_name filepath) (lit ".") then
    log L_file_manager DEBUG
        (lit "Skipping hidden file: " ++ path_name filepath) ;;
    ret false
  else if str_endswith (path_name filepath) (lit ".icloud") then
    log L_file_manager INFO
        (lit "Skipping iCloud placeholder: " ++ path_name filepath) ;;
    ret false
  else if negb (str_in (str_lower (path_suffix filepath))
                       SUPPORTED_EXTENSIONS) then
    log L_file_manager DEBUG
        (lit "Skipping unsupported file type: " ++ path_name filepath
         ++ lit " (" ++ path_suffix filepath ++ lit ")") ;;
    ret false
  else
    ex <- path_exists filepath ;;
    isf <- path_is_file filepath ;;
    if negb ex || negb isf then
      log L_file_manager WARNING
          (lit "File not accessible: " ++ str_of_path filepath) ;;
      ret false
    else ret true.

(** *** extractor.py *)

(** [ContentExtractor.__init__] *)
Definition ContentExtractor_init (ocr_langs : str) (min_len : Z)
  : M ContentExtractor :=
  log L_extractor INFO
      (lit "ContentExtractor initialized with OCR languages: " ++ ocr_langs) ;;
  ret (mkContentExtractor ocr_langs min_len).

(** The engines open the file themselves. *)
Definition call_PdfReader (filepath : Path)
  : M (list (Exception + str)) :=
  emit (Call_PdfReader filepath) ;;
  f <- get_fs ;;
  content <- lift (fs_open f filepath) ;;
  lift (PdfReader ext content).

Definition call_convert_from_path (filepath : Path) : M (list Image) :=
  emit (Call_convert_from_path filepath) ;;
  f <- get_fs ;;
  content <- lift (fs_open f filepath) ;;
  lift (convert_from_path ext content).

Definition call_Image_open (filepath : Path) : M Image :=
  emit (Call_Image_open filepath) ;;
  f <- get_fs ;;
  content <- lift (fs_open f filepath) ;;
  lift (Image_open ext content).

(** The [for] loop of [_extract_pdf_text] over [enumerate(reader.pages, 1)],
    on its variable [text]. *)
Fixpoint pdf_pages_loop (pages : list (Exception + str)) (i : nat)
    (text : str) : M (Interrupted str) :=
  match pages with
  | [] => ret (text, None)
  | page :: rest =>
      emit (Call_extract_text i) ;;
      match page with
      | inl e => ret (text, Some e)
      | inr extracted =>
          match extracted with
          | [] => pdf_pages_loop rest (S i) text
          | _ :: _ =>
              let text := text ++ extracted ++ [newline] in
              log L_extractor DEBUG
                  (lit "Extracted " ++ str_of_nat (length extracted)
                   ++ lit " chars from page " ++ str_of_nat i) ;;
              pdf_pages_loop rest (S i) text
          end
      end
  end.

(** [ContentExtractor._extract_pdf_text] *)
Definition _extract_pdf_text (self : ContentExtractor) (filepath : Path)
  : M str :=
  let text := [] in
  r <- try_keeping text
         (pages <- call_PdfReader filepath ;;
          let page_count := length pages in
          log L_extractor DEBUG
              (lit "PDF has " ++ str_of_nat page_count ++ lit " pages") ;;
          pdf_pages_loop pages 1 text) ;;
  let text := fst r in
  match snd r with
  | None =>
      log L_extractor INFO
          (lit "PDF text extraction successful: "
           ++ str_of_nat (length text) ++ lit " characters") ;;
      ret text
  | Some e =>
      log L_extractor WARNING
          (lit "PDF text extraction failed: " ++ exc_str e) ;;
      ret text
  end.

(** The [for] loop of [_extract_via_ocr] over [enumerate(images, 1)], on
    its variable [text]. *)
Fixpoint ocr_images_loop (self : ContentExtractor) (images : list Image)
    (i : nat) (text : str) : M (Interrupted str) :=
  match images with
  | [] => ret (text, None)
  | img :: rest =>
      emit (Call_image_to_string i) ;;
      match image_to_string ext img (ocr_languages self) with
      | inl e => ret (text, Some e)
      | inr ocr_result =>
          let text := text ++ ocr_result in
          log L_extractor DEBUG
              (lit "OCR processed image " ++ str_of_nat i ++ lit ": "
               ++ str_of_nat (length ocr_result) ++ lit " chars") ;;
          ocr_images_loop self rest (S i) text
      end
  end.

(** [ContentExtractor._extract_via_ocr] *)
Definition _extract_via_ocr (self : ContentExtractor) (filepath : Path)
  : M str :=
  let text := [] in
  r <- try_keeping text
         (images <-
            (if str_eqb (str_lower (path_suffix filepath)) (lit ".pdf") then
               log L_extractor DEBUG (lit "Converting PDF to images for OCR") ;;
               images <- call_convert_from_path filepath ;;
               log L_extractor INFO
                   (lit "PDF converted to " ++ str_of_nat (length images)
                    ++ lit " images") ;;
               ret images
             else
               log L_extractor DEBUG
                   (lit "Loading image file: " ++ path_name filepath) ;;
               img <- call_Image_open filepath ;;
               ret [img]) ;;
          ocr_images_loop self images 1 text) ;;
  let text := fst r in
  match snd r with
  | None =>
      log L_extractor INFO
          (lit "OCR extraction successful: "
           ++ str_of_nat (length text) ++ lit " characters") ;;
      ret text
  | Some e =>
      log L_extractor ERROR (lit "OCR extraction failed: " ++ exc_str e) ;;
      ret text
  end.

(** [ContentExtractor.extract_content] *)
Definition extract_content (self : ContentExtractor) (filepath : Path)
  : M str :=
  ex <- path_exists filepath ;;
  if negb ex then
    log L_extractor ERROR (lit "File not found: " ++ str_of_path filepath) ;;
    raise (Exc FileNotFoundError
               (lit "File not found: " ++ str_of_path filepath))
  else
    log L_extractor DEBUG
        (lit "Starting content extraction for: " ++ path_name filepath) ;;
    let text := [] in
    text <- (if str_eqb (str_lower (path_suffix filepath)) (lit ".pdf")
             then call (Call_extract_pdf_text filepath)
                       (_extract_pdf_text self filepath)
             else ret text) ;;
    text <- (if (Z.of_nat (length (str_strip_ws text))
                 <? min_content_length self)%Z
             then
               log L_extractor INFO
                   (lit "Text extraction yielded "
                    ++ str_of_nat (length text)
                    ++ lit " chars. Attempting OCR fallback.") ;;
               ocr_text <- call (Call_extract_via_ocr filepath)
                                (_extract_via_ocr self filepath) ;;
               ret (text ++ ocr_text)
             else ret text) ;;
    log L_extractor INFO
        (lit "Content extraction completed. Total characters: "
         ++ str_of_nat (length text)) ;;
    ret text.

(** [ContentExtractor.is_supported_file] *)
Definition is_supported_file (filepath : Path) : bool :=
  str_in (str_lower (path_suffix filepath)) SUPPORTED_EXTENSIONS.

(** *** monitor.py *)

(** [DocumentEventHandler.on_created], with the handler's callback and
    delay. *)
Definition on_created (callback : Path -> M bool) (stabilization_delay : Z)
    (event : FileSystemEvent) : M unit :=
  if is_directory event then
    log L_monitor DEBUG
        (lit "Ignoring directory creation: " ++ src_path event)
  else
    let filepath := Path_of_str (src_path event) in
    log L_monitor INFO (lit "New file detected: " ++ path_name filepath) ;;
    (if (0 <? stabilization_delay)%Z then
       log L_monitor DEBUG (lit "Waiting for file stabilization") ;;
       emit (Call_sleep stabilization_delay)
     else ret tt) ;;
    try_except
      (callback filepath ;; ret tt)
      (fun e =>
         log L_monitor ERROR
             (lit "Error in process callback for " ++ path_name filepath
              ++ lit ": " ++ exc_str e)).

(** The [for] loop of [run_initial_scan], on its variable
    [processed_count]. *)
Fixpoint initial_scan_loop (callback : option (Path -> M bool))
    (files : list Path) (processed_count : nat) : M nat :=
  match files with
  | [] => ret processed_count
  | filepath :: rest =>
      r <- try_keeping processed_count
             (match callback with
              | Some cb => cb filepath ;; ret (processed_count + 1, None)
              | None => ret (processed_count, None)
              end) ;;
      (match snd r with
       | None => ret tt
       | Some e =>
           log L_monitor ERROR
               (lit "Error processing " ++ path_name filepath
                ++ lit " during initial scan: " ++ exc_str e)
       end) ;;
      initial_scan_loop callback rest (fst r)
  end.

(** [DirectoryMonitor.run_initial_scan] *)
Definition run_initial_scan (self : DirectoryMonitor) : M unit :=
  log L_monitor INFO (lit "Starting initial directory scan (catch-up mode)") ;;
  ex <- path_exists (inbox_path self) ;;
  if negb ex then
    log L_monitor WARNING
        (lit "Inbox path does not exist: " ++ str_of_path (inbox_path self))
  else
    isd <- path_is_dir (inbox_path self) ;;
    if negb isd then
      log L_monitor ERROR
          (lit "Inbox path is not a directory: "
           ++ str_of_path (inbox_path self))
    else
      f <- get_fs ;;
      let files := filter (fs_is_file f) (fs_iterdir f (inbox_path self)) in
      log L_monitor INFO
          (lit "Found " ++ str_of_nat (length files)
           ++ lit " files in inbox for initial processing") ;;
      processed_count <- initial_scan_loop (process_callback self) files 0 ;;
      log L_monitor INFO
          (lit "Initial scan completed. Processed "
           ++ str_of_nat processed_count ++ lit "/"
           ++ str_of_nat (length files) ++ lit " files").

(** [DirectoryMonitor.start_monitoring]; the result tells whether an
    observer is running. *)
Definition start_monitoring (self : DirectoryMonitor) : M bool :=
  match process_callback self with
  | None =>
      log L_monitor ERROR
          (lit "Cannot start monitoring without a process callback") ;;
      ret false
  | Some _ =>
      log L_monitor INFO (lit "DocumentEventHandler initialized") ;;
      emit (Call_Observer_start (inbox_path self)) ;;
      lift (Observer_start ext (inbox_path self)) ;;
      log L_monitor INFO
          (lit "Directory monitoring started for: "
           ++ str_of_path (inbox_path self)) ;;
      ret true
  end.

(** [DirectoryMonitor.stop_monitoring] *)
Definition stop_monitoring (observer : bool) : M unit :=
  if observer then
    emit Call_Observer_stop ;;
    log L_monitor INFO (lit "Directory monitoring stopped")
  else ret tt.

(** What the observer does while [run] sleeps: the outside world creates
    an entry, the handler is told. *)
Fixpoint deliver (callback : Path -> M bool) (events : list FileSystemEvent)
  : M unit :=
  match events with
  | [] => ret tt
  | event :: rest =>
      f <- get_fs ;;
      put_fs (fs_add f (Path_of_str (src_path event)) (created event)) ;;
      on_created callback (FILE_STABILIZATION_DELAY cfg) event ;;
      deliver callback rest
  end.

(** [DirectoryMonitor.run]: the loop sleeps until the keyboard interrupt,
    which arrives once the observer has delivered [live_events]. *)
Definition DirectoryMonitor_run (self : DirectoryMonitor) : M unit :=
  log L_monitor INFO (lit "Starting DirectoryMonitor workflow") ;;
  run_initial_scan self ;;
  observer <- start_monitoring self ;;
  log L_monitor INFO (lit "Monitor is now active. Press Ctrl+C to stop.") ;;
  (match process_callback self with
   | Some cb => if observer then deliver cb (live_events ext) else ret tt
   | None => ret tt
   end) ;;
  log L_monitor INFO (lit "Keyboard interrupt received") ;;
  stop_monitoring observer ;;
  log L_monitor INFO (lit "DirectoryMonitor shutdown complete").

(** *** main.py *)

(** [setup_logging]: every record goes to the console handler; the file
    handler is added when a log file is configured and can be opened. *)
Definition setup_logging : M unit :=
  let log_file := LOG_FILE cfg in
  (match log_file with
   | [] => ret tt
   | _ :: _ =>
       try_except
         (emit (Call_FileHandler log_file) ;;
          lift (FileHandler ext log_file) ;;
          log L_root INFO (lit "Logging to file: " ++ log_file))
         (fun e =>
            log L_root ERROR
                (lit "Failed to setup file logging: " ++ exc_str e))
   end) ;;
  log L_root INFO
      (lit "Logging initialized at " ++ LOG_LEVEL cfg ++ lit " level").

(** [DocumentProcessor.__init__] *)
Definition DocumentProcessor_init : M DocumentProcessor :=
  log L_main INFO (lit "Initializing DocumentProcessor") ;;
  extractor <- ContentExtractor_init (OCR_LANGUAGES cfg)
                                     (MIN_CONTENT_LENGTH cfg) ;;
  file_manager <- FileSystemManager_init (TARGET_ROOT cfg) ;;
  log L_main INFO (lit "DocumentProcessor initialization complete") ;;
  ret (mkDocumentProcessor extractor file_manager).

(** [OllamaAnalyzer.analyze_document], the classifier call. *)
Definition call_analyze_document (content : str) : M DocumentMetadata :=
  emit (Call_analyze_document content) ;;
  lift (analyze_document ext content).

(** [OllamaAnalyzer.check_connection], the connectivity probe. *)
Definition call_check_connection : M bool :=
  emit Call_check_connection ;;
  ret (check_connection ext).

(** [DocumentProcessor.process_file] *)
Definition process_file (self : DocumentProcessor) (filepath : Path)
  : M bool :=
  log L_main INFO (lit "Processing file: " ++ path_name filepath) ;;
  valid <- validate_source_file (file_manager self) filepath ;;
  if negb valid then
    log L_main INFO
        (lit "File validation failed, skipping: " ++ path_name filepath) ;;
    ret false
  else
    try_except
      (log L_main DEBUG
           (lit "Extracting content from: " ++ path_name filepath) ;;
       content <- call (Call_extract_content filepath)
                       (extract_content (extractor self) filepath) ;;
       (match str_strip_ws content with
        | [] =>
            log L_main WARNING
                (lit "No content extracted from: " ++ path_name filepath)
        | _ :: _ => ret tt
        end) ;;
       log L_main DEBUG
           (lit "Analyzing content for: " ++ path_name filepath) ;;
       metadata <- call_analyze_document content ;;
       log L_main DEBUG
           (lit "Moving file to: " ++ category metadata ++ lit "/"
            ++ filename metadata) ;;
       target_path <- call (Call_move_file filepath)
                           (move_file (file_manager self) filepath metadata) ;;
       match target_path with
       | Some target =>
           log L_main INFO
               (lit "Successfully processed: " ++ path_name filepath
                ++ lit " -> " ++ category metadata ++ lit "/"
                ++ path_name target) ;;
           ret true
       | None =>
           log L_main ERROR
               (lit "Failed to move file: " ++ path_name filepath) ;;
           ret false
       end)
      (fun e =>
         log L_main ERROR
             (lit "Error processing file " ++ path_name filepath
              ++ lit ": " ++ exc_str e) ;;
         ret false).

(** [verify_prerequisites] *)
Definition verify_prerequisites : M bool :=
  log L_main INFO (lit "Verifying prerequisites") ;;
  valid <- Config_validate ;;
  if negb valid then
    log L_main ERROR (lit "Configuration validation failed") ;;
    ret false
  else
    created_ <- try_except
                  (Config_ensure_directories ;;
                   log L_main INFO (lit "Required directories verified") ;;
                   ret true)
                  (fun e =>
                     log L_main ERROR
                         (lit "Failed to create directories: " ++ exc_str e) ;;
                     ret false) ;;
    if negb created_ then ret false
    else
      connected <- call_check_connection ;;
      if negb connected then
        log L_main ERROR
            (lit "Cannot connect to Ollama API at " ++ OLLAMA_URL cfg
             ++ lit ". Make sure Ollama is running: 'ollama serve'") ;;
        ret false
      else
        log L_main INFO (lit "All prerequisites verified successfully") ;;
        ret true.

(** [main]: the exit code. *)
Definition main : M Z :=
  setup_logging ;;
  log L_main INFO (repeat "="%char 60) ;;
  log L_main INFO (lit "AI Document Sorter - Starting") ;;
  log L_main INFO (repeat "="%char 60) ;;
  ok <- verify_prerequisites ;;
  if negb ok then
    log L_main ERROR (lit "Prerequisites check failed. Exiting.") ;;
    ret 1%Z
  else
    log L_main INFO (lit "Inbox Path: " ++ INBOX_PATH cfg) ;;
    log L_main INFO (lit "Target Path: " ++ TARGET_ROOT cfg) ;;
    log L_main INFO (lit "Ollama Model: " ++ MODEL_NAME cfg) ;;
    log L_main INFO (lit "OCR Languages: " ++ OCR_LANGUAGES cfg) ;;
    processor <- DocumentProcessor_init ;;
    let monitor :=
      mkDirectoryMonitor
        (Path_of_str (INBOX_PATH cfg))
        (Some (fun filepath =>
                 call (Call_process_file filepath)
                      (process_file processor filepath))) in
    log L_monitor INFO
        (lit "DirectoryMonitor initialized for: "
         ++ str_of_path (inbox_path monitor)) ;;
    r <- try_except
           (call Call_monitor_run (DirectoryMonitor_run monitor) ;;
            ret None)
           (fun e =>
              log L_main ERROR
                  (lit "Fatal error in main loop: " ++ exc_str e) ;;
              ret (Some 1%Z)) ;;
    match r with
    | Some code => ret code
    | None =>
        log L_main INFO (lit "Application shutdown complete") ;;
        ret 0%Z
    end.

End Program.

(** * Vocabulary of the statements *)

(** The characters the sanitizer replaces: both separators and the
    reserved characters. *)
Definition replaced_chars : list ascii := "/"%char :: "\"%char :: invalid_chars.

(** What the replacement stage of the sanitizer does to one character. *)
Definition scrub (c : ascii) : ascii :=
  if char_in replaced_chars c then "_"%char else c.

(** The first character of [s], if there is one, is outside [chars]. *)
Definition starts_clean (chars : str) (s : str) : Prop :=
  match s with
  | [] => True
  | c :: _ => char_in chars c = false
  end.

(** Neither end of [s] is a character of [chars]. *)
Definition ends_clean (chars : str) (s : str) : Prop :=
  starts_clean chars s /\ starts_clean chars (rev s).

(** [extends P t0 t]: the trace [t] is [t0] with further events in front,
    all of them accepted by [P]. *)
Definition extends (P : Event -> bool) (t0 t : list Event) : Prop :=
  exists tr, t = tr ++ t0 /\ Forall (fun e => P e = true) tr.

(** The run of [m] adds only events accepted by [P]. *)
Definition adds (P : Event -> bool) {A} (m : M A) : Prop :=
  forall w, extends P (trace w) (trace (snd (m w))).

(** The run of [m] leaves the file system as it was. *)
Definition keeps_fs {A} (m : M A) : Prop :=
  forall w, fs (snd (m w)) = fs w.

(** The run of [m] ends with a value: no exception escapes, and the run
    is not cut short. *)
Definition returns {A} (m : M A) : Prop :=
  forall w, exists a, fst (m w) = Return a.

(** The run of [m] is not cut short. *)
Definition terminates {A} (m : M A) : Prop :=
  forall w, fst (m w) <> Diverge.

(** From any world whose file system is [f], the run of [m] ends with the
    outcome [o] and leaves the file system as it was. *)
Definition ends_with (f : FS) {A} (m : M A) (o : Outcome A) : Prop :=
  forall w, fs w = f -> fst (m w) = o /\ fs (snd (m w)) = f.

(** The outcome of an external call. *)
Definition outcome_of {A} (r : Exception + A) : Outcome A :=
  match r with
  | inl e => Raise e
  | inr a => Return a
  end.

(** *** The extractor *)

Definition is_pdf (filepath : Path) : bool :=
  str_eqb (str_lower (path_suffix filepath)) (lit ".pdf").

(** What one page adds to the text: its text and a line break, or nothing
    when the page has no text. *)
Definition page_text (extracted : str) : str :=
  match extracted with
  | [] => []
  | _ :: _ => extracted ++ [newline]
  end.

(** The text of the pages in front of the first page that fails. *)
Fixpoint pages_text (pages : list (Exception + str)) : str :=
  match pages with
  | [] => []
  | inl _ :: _ => []
  | inr extracted :: rest => page_text extracted ++ pages_text rest
  end.

(** The failure of the first page that fails. *)
Fixpoint pages_failure (pages : list (Exception + str)) : option Exception :=
  match pages with
  | [] => None
  | inl e :: _ => Some e
  | inr _ :: rest => pages_failure rest
  end.

(** The text of every page that does not fail, failing pages skipped:
    what the native stage would return if a failure cost one page only. *)
Fixpoint all_readable_pages_text (pages : list (Exception + str)) : str :=
  match pages with
  | [] => []
  | inl _ :: rest => all_readable_pages_text rest
  | inr extracted :: rest => page_text extracted ++ all_readable_pages_text rest
  end.

(** The pages the PDF reader finds at [p], if it can read the file. *)
Definition pdf_pages (ext : Externals) (f : FS) (p : Path)
  : Exception + list (Exception + str) :=
  match fs_open f p with
  | inl e => inl e
  | inr content => PdfReader ext content
  end.

(** The native text of the file at [p]. *)
Definition native_pdf_text (ext : Externals) (f : FS) (p : Path) : str :=
  match pdf_pages ext f p with
  | inl _ => []
  | inr pages => pages_text pages
  end.

(** The text of the images in front of the first one the OCR engine fails
    on. *)
Fixpoint images_text (ext : Externals) (langs : str) (images : list Image)
  : str :=
  match images with
  | [] => []
  | img :: rest =>
      match image_to_string ext img langs with
      | inl _ => []
      | inr ocr_result => ocr_result ++ images_text ext langs rest
      end
  end.

Fixpoint images_failure (ext : Externals) (langs : str)
    (images : list Image) : option Exception :=
  match images with
  | [] => None
  | img :: rest =>
      match image_to_string ext img langs with
      | inl e => Some e
      | inr _ => images_failure ext langs rest
      end
  end.

(** The images the OCR stage works on. *)
Definition ocr_images (ext : Externals) (f : FS) (p : Path)
  : Exception + list Image :=
  match fs_open f p with
  | inl e => inl e
  | inr content =>
      if is_pdf p then convert_from_path ext content
      else match Image_open ext content with
           | inl e => inl e
           | inr img => inr [img]
           end
  end.

(** The text the OCR stage returns for the file at [p]. *)
Definition ocr_text (ext : Externals) (self : ContentExtractor) (f : FS)
    (p : Path) : str :=
  match ocr_images ext f p with
  | inl _ => []
  | inr images => images_text ext (ocr_languages self) images
  end.

(** The text of the native stage of [extract_content]. *)
Definition native_text (ext : Externals) (f : FS) (p : Path) : str :=
  if is_pdf p then native_pdf_text ext f p else [].

(** The test that sends [extract_content] to the OCR stage. *)
Definition too_short (self : ContentExtractor) (text : str) : bool :=
  (Z.of_nat (length (str_strip_ws text)) <? min_content_length self)%Z.

Definition is_log (e : Event) : bool :=
  match e with Log _ _ _ => true | _ => false end.

(** The calls to the external extraction engines. *)
Definition is_engine_call (e : Event) : bool :=
  match e with
  | Call_PdfReader _ | Call_extract_text _ | Call_convert_from_path _
  | Call_Image_open _ | Call_image_to_string _ => true
  | _ => false
  end.

(** The events of the OCR stage: its entry and the calls it makes. *)
Definition is_ocr_call (e : Event) : bool :=
  match e with
  | Call_extract_via_ocr _ | Call_convert_from_path _
  | Call_Image_open _ | Call_image_to_string _ => true
  | _ => false
  end.

(** The events of the native stage. *)
Definition native_event (e : Event) : bool :=
  match e with
  | Log L_extractor _ _ | Call_extract_pdf_text _ | Call_PdfReader _
  | Call_extract_text _ => true
  | _ => false
  end.

(** The events of the OCR stage, with its log records. *)
Definition ocr_event (e : Event) : bool :=
  match e with
  | Log L_extractor _ _ => true
  | _ => is_ocr_call e
  end.

(** The events of the extractor. *)
Definition extractor_event (e : Event) : bool :=
  match e with
  | Call_extract_content _ => true
  | _ => native_event e || ocr_event e
  end.

(** The OCR stage was entered among the events [tr]. *)
Definition ocr_invoked (tr : list Event) : bool := existsb is_ocr_call tr.

(** The text [extract_content] returns for the file at [p]: the native
    text, followed by the OCR text when the native text is too short. *)
Definition extracted_text (ext : Externals) (self : ContentExtractor)
    (f : FS) (p : Path) : str :=
  let native := native_text ext f p in
  if too_short self native then native ++ ocr_text ext self f p else native.

(** *** The file manager *)

(** The first path [_resolve_target_path] tries, and the path it tries
    with the counter [k]. *)
Definition base_path (target_dir : Path) (safe_filename extension : str)
  : Path :=
  joinpath target_dir (safe_filename ++ extension).

Definition candidate (target_dir : Path) (safe_filename extension : str)
    (k : nat) : Path :=
  joinpath target_dir
    (safe_filename ++ lit "_" ++ str_of_nat k ++ extension).

(** The warning of the safety limit. *)
Definition cap_warning (safe_filename : str) : Event :=
  Log L_file_manager WARNING
      (lit "Unusually high counter for filename: " ++ safe_filename).

(** The checks of [validate_source_file]. *)
Definition is_hidden (filepath : Path) : bool :=
  str_startswith (path_name filepath) (lit ".").

Definition is_icloud_placeholder (filepath : Path) : bool :=
  str_endswith (path_name filepath) (lit ".icloud").

(** The candidate passes every check. *)
Definition accepts (f : FS) (filepath : Path) : bool :=
  negb (is_hidden filepath) && negb (is_icloud_placeholder filepath)
  && is_supported_file filepath
  && fs_exists f filepath && fs_is_file f filepath.

(** The events of a move: the entry into [move_file] and the changes it
    asks of the file system. *)
Definition is_move_event (e : Event) : bool :=
  match e with
  | Call_move_file _ | Call_mkdir _ | Call_shutil_move _ _ => true
  | _ => false
  end.

Definition file_manager_log (e : Event) : bool :=
  match e with Log L_file_manager _ _ => true | _ => false end.

Definition file_manager_event (e : Event) : bool :=
  match e with
  | Log L_file_manager _ _ | Call_mkdir _ | Call_shutil_move _ _ => true
  | _ => false
  end.

(** The events one file can cause on its way through the pipeline. *)
Definition pipeline_event (e : Event) : bool :=
  match e with
  | Log L_main _ _ | Call_analyze_document _ | Call_move_file _ => true
  | _ => extractor_event e || file_manager_event e
  end.

(** Every path of [f] that is not at or below [src] is still there in
    [f']. *)
Definition grows_except (src : Path) (f f' : FS) : Prop :=
  forall q, fs_exists f q = true -> is_under src q = false ->
            fs_exists f' q = true.

(** The run of [m] removes nothing but, at most, the tree at [src]. *)
Definition preserves (src : Path) {A} (m : M A) : Prop :=
  forall w, grows_except src (fs w) (fs (snd (m w))).

(** The entries into the extraction stages and the calls to their
    engines. *)
Definition is_extraction_call (e : Event) : bool :=
  match e with
  | Call_extract_content _ | Call_extract_pdf_text _
  | Call_extract_via_ocr _ => true
  | _ => is_engine_call e
  end.

(** *** Start-up *)

(** [Config.validate] as a test on the file system. *)
Definition config_valid (cfg : Config) (f : FS) : bool :=
  fs_exists f (path_parent (Path_of_str (INBOX_PATH cfg)))
  && fs_exists f (path_parent (Path_of_str (TARGET_ROOT cfg))).

(** The file system after [Config.ensure_directories], or its failure. *)
Definition directories_ready (cfg : Config) (f : FS) : Exception + FS :=
  match fs_makedirs f (Path_of_str (INBOX_PATH cfg)) with
  | inl e => inl e
  | inr f1 => fs_makedirs f1 (Path_of_str (TARGET_ROOT cfg))
  end.

(** The prerequisite check passes: the configured paths are usable and the
    classifier answers the probe. *)
Definition prerequisites_met (cfg : Config) (ext : Externals) (f : FS)
  : bool :=
  config_valid cfg f
  && match directories_ready cfg f with inr _ => true | inl _ => false end
  && check_connection ext.

(** The events of the start-up: records of the root and main loggers, the
    opening of the log file, the creation of the configured directories
    and the connectivity probe.  No monitor, no file. *)
Definition startup_event (e : Event) : bool :=
  match e with
  | Log L_root _ _ | Log L_main _ _ | Call_FileHandler _ | Call_mkdir _
  | Call_check_connection => true
  | _ => false
  end.

Definition is_probe (e : Event) : bool :=
  match e with Call_check_connection => true | _ => false end.

Definition not_probe (e : Event) : bool := negb (is_probe e).

(** The events of the monitor at work: its own, and those of the files it
    hands to the pipeline. *)
Definition monitor_event (e : Event) : bool :=
  match e with
  | Log L_monitor _ _ | Call_process_file _ | Call_monitor_run
  | Call_Observer_start _ | Call_Observer_stop | Call_sleep _ => true
  | _ => pipeline_event e
  end.

(** The run of [m] probes the classifier [n] times at most. *)
Definition probes_at_most (n : nat) {A} (m : M A) : Prop :=
  forall w, exists tr,
    trace (snd (m w)) = tr ++ trace w /\ length (filter is_probe tr) <= n.

(** *** Documents and what a move does to them *)




(** *** The monitor *)






(** *** Sample collaborators and worlds *)

(** Engines for the examples: the PDF reader finds three pages, the second
    of which fails; the OCR engine reads the same line from every image;
    the classifier files everything as an Acme invoice. *)
Definition sample_externals : Externals :=
  {| PdfReader := fun _ =>
       inr [inr (lit "A"); inl (Exc EngineError (lit "bad page"));
            inr (lit "C")];
     convert_from_path := fun _ => inr [lit "bitmap"];
     Image_open := fun _ => inr (lit "bitmap");
     image_to_string := fun _ _ => inr (lit "Invoice from Acme Corp");
     analyze_document := fun _ =>
       inr (mkMetadata (lit "Invoices") (lit "Acme_Invoice_2024"));
     check_connection := true;
     FileHandler := fun _ => inr tt;
     Observer_start := fun _ => inr tt;
     live_events := [] |}.

(** An inbox with a PDF and a picture, and nothing traced yet. *)
Definition sample_world : World :=
  mkWorld [ ([lit "in"], Dir);
            ([lit "in"; lit "scan.PDF"], File (lit "%PDF"));
            ([lit "in"; lit "photo.png"], File (lit "PNG")) ]
          [].

(** The extractor and the file manager of the examples. *)
Definition sample_extractor : ContentExtractor :=
  mkContentExtractor (lit "deu+eng") 50.

Definition sample_file_manager : FileSystemManager :=
  mkFileSystemManager [lit "sorted"].

Definition sample_metadata : DocumentMetadata :=
  mkMetadata (lit "Invoices") (lit "Acme_Invoice_2024").

(** A target directory in which the plain name and the counters 1 to [n]
    are taken. *)
Definition crowded_world (n : nat) : World :=
  mkWorld
    (([lit "sorted"; lit "Invoices"; lit "Acme_Invoice_2024.pdf"],
      File (lit "first"))
     :: map (fun k =>
               ([lit "sorted"; lit "Invoices";
                 lit "Acme_Invoice_2024_" ++ str_of_nat k ++ lit ".pdf"],
                File (lit "later")))
            (seq 1 n))
    [].

(** A classifier that files everything as A in the category I, for a
    sorter rooted at s. *)
Definition overflow_externals : Externals :=
  {| PdfReader := fun _ => inr [inr (lit "text of the new document")];
     convert_from_path := fun _ => inr [];
     Image_open := fun _ => inr (lit "bitmap");
     image_to_string := fun _ _ => inr [];
     analyze_document := fun _ => inr (mkMetadata (lit "I") (lit "A"));
     check_connection := true;
     FileHandler := fun _ => inr tt;
     Observer_start := fun _ => inr tt;
     live_events := [] |}.

Definition overflow_processor : DocumentProcessor :=
  mkDocumentProcessor (mkContentExtractor (lit "deu+eng") 50)
                      (mkFileSystemManager [lit "s"]).

(** A target directory in which the plain name and the counters 1 to 1000
    are taken, each by a document of its own, and an inbox with one new
    file. *)
Definition overflow_world : World :=
  mkWorld
    ([ ([lit "s"], Dir);
       ([lit "s"; lit "I"], Dir);
       ([lit "s"; lit "I"; lit "A.pdf"], File (lit "document 0")) ]
     ++ map (fun k =>
               ([lit "s"; lit "I"; lit "A_" ++ str_of_nat k ++ lit ".pdf"],
                File (lit "document " ++ str_of_nat k)))
            (seq 1 1000)
     ++ [ ([lit "in"], Dir);
          ([lit "in"; lit "new.pdf"], File (lit "NEW")) ])
    [].

(** The entry holds the given content. *)
Definition holds_content (content : str) (entry : Path * Node) : bool :=
  match snd entry with
  | File c => str_eqb c content
  | Dir => false
  end.


(** * Theorems *)

(** ** Strings *)

Section StringFacts.

Variable chars : str.

Lemma str_lstrip_suffix (s : str) :
  exists pre, s = pre ++ str_lstrip chars s.
Proof.
  induction s as [|c s IH]; simpl.
  - exists []. reflexivity.
  - destruct (char_in chars c).
    + destruct IH as [pre IH]. exists (c :: pre). simpl. now f_equal.
    + exists []. reflexivity.
Qed.

Lemma str_lstrip_starts_clean (s : str) :
  starts_clean chars (str_lstrip chars s).
Proof.
  induction s as [|c s IH]; simpl; auto.
  destruct (char_in chars c) eqn:E; simpl; auto.
Qed.

Lemma str_lstrip_id (s : str) :
  starts_clean chars s -> str_lstrip chars s = s.
Proof.
  destruct s as [|c s]; simpl; auto.
  now intros ->.
Qed.

Lemma starts_clean_prefix (a b : str) :
  starts_clean chars (a ++ b) -> starts_clean chars a.
Proof.
  destruct a; simpl; auto.
Qed.

Lemma str_strip_ends_clean (s : str) :
  ends_clean chars (str_strip chars s).
Proof.
  unfold ends_clean, str_strip, str_rstrip.
  set (a := str_lstrip chars s).
  assert (Ha : starts_clean chars a) by apply str_lstrip_starts_clean.
  split.
  - destruct (str_lstrip_suffix (rev a)) as [pre Hpre].
    apply (starts_clean_prefix _ (rev pre)).
    rewrite <- rev_app_distr, <- Hpre, rev_involutive. exact Ha.
  - rewrite rev_involutive. apply str_lstrip_starts_clean.
Qed.

Lemma str_strip_id (s : str) :
  ends_clean chars s -> str_strip chars s = s.
Proof.
  intros [H1 H2]. unfold str_strip, str_rstrip.
  rewrite (str_lstrip_id s H1), (str_lstrip_id (rev s) H2).
  apply rev_involutive.
Qed.

Lemma str_lstrip_Forall (P : ascii -> Prop) (s : str) :
  Forall P s -> Forall P (str_lstrip chars s).
Proof.
  intros H. destruct (str_lstrip_suffix s) as [pre Hpre].
  rewrite Hpre in H. apply Forall_app in H. tauto.
Qed.

Lemma Forall_rev_str (P : ascii -> Prop) (s : str) :
  Forall P s -> Forall P (rev s).
Proof.
  intros H. apply Forall_forall. intros x Hx.
  apply in_rev in Hx. rewrite Forall_forall in H. auto.
Qed.

Lemma str_strip_Forall (P : ascii -> Prop) (s : str) :
  Forall P s -> Forall P (str_strip chars s).
Proof.
  intros H. unfold str_strip, str_rstrip.
  apply Forall_rev_str, str_lstrip_Forall, Forall_rev_str,
        str_lstrip_Forall, H.
Qed.

End StringFacts.

(** ** The sanitizer *)

Lemma scrub_spec (c : ascii) :
  fold_left (fun acc char => if Ascii.eqb acc char then "_"%char else acc)
            replaced_chars c = scrub c.
Proof.
  destruct c as [[] [] [] [] [] [] [] []]; reflexivity.
Qed.

Lemma scrub_clean (c : ascii) : char_in replaced_chars (scrub c) = false.
Proof.
  destruct c as [[] [] [] [] [] [] [] []]; reflexivity.
Qed.

Lemma scrub_id (c : ascii) :
  char_in replaced_chars c = false -> scrub c = c.
Proof.
  unfold scrub. now intros ->.
Qed.

(** The replacement stage maps [scrub] over the name. *)
Lemma replace_stage_map (name : str) :
  fold_left (fun acc char => str_replace char "_" acc) invalid_chars
            (str_replace "\" "_" (str_replace "/" "_" name))
  = map scrub name.
Proof.
  unfold invalid_chars, str_replace. cbn [fold_left].
  rewrite !map_map. apply map_ext. intros c.
  rewrite <- scrub_spec. reflexivity.
Qed.

Lemma sanitize_unfold (name : str) :
  _sanitize_path_component name =
  match str_strip (lit ". ") (map scrub name) with
  | [] => lit "Unnamed"
  | _ :: _ => str_strip (lit ". ") (map scrub name)
  end.
Proof.
  unfold _sanitize_path_component. rewrite replace_stage_map. reflexivity.
Qed.

Lemma map_scrub_id (s : str) :
  Forall (fun c => char_in replaced_chars c = false) s -> map scrub s = s.
Proof.
  induction 1 as [|c s Hc _ IH]; simpl; [reflexivity|].
  now rewrite (scrub_id c Hc), IH.
Qed.

(** The sanitized name holds none of the replaced characters. *)
Lemma sanitize_no_replaced (name : str) :
  Forall (fun c => char_in replaced_chars c = false)
         (_sanitize_path_component name).
Proof.
  rewrite sanitize_unfold.
  assert (H : Forall (fun c => char_in replaced_chars c = false)
                     (str_strip (lit ". ") (map scrub name))).
  { apply str_strip_Forall. apply Forall_forall. intros x Hx.
    apply in_map_iff in Hx. destruct Hx as [c [<- _]]. apply scrub_clean. }
  destruct (str_strip (lit ". ") (map scrub name)); [|exact H].
  repeat constructor.
Qed.

(** Neither end of the sanitized name is a dot or a space. *)
Lemma sanitize_ends_clean (name : str) :
  ends_clean (lit ". ") (_sanitize_path_component name).
Proof.
  rewrite sanitize_unfold.
  pose proof (str_strip_ends_clean (lit ". ") (map scrub name)) as H.
  destruct (str_strip (lit ". ") (map scrub name)); [|exact H].
  split; reflexivity.
Qed.

(** The sanitized name is never empty. *)
Lemma sanitize_nonempty (name : str) : _sanitize_path_component name <> [].
Proof.
  rewrite sanitize_unfold.
  destruct (str_strip (lit ". ") (map scrub name)); discriminate.
Qed.

(** C9: sanitizing is idempotent: applying [_sanitize_path_component] to
    its own result gives that result back, for every string. *)
Theorem C9_sanitize_idempotent (s : str) :
  _sanitize_path_component (_sanitize_path_component s)
  = _sanitize_path_component s.
Proof.
  rewrite (sanitize_unfold (_sanitize_path_component s)).
  rewrite (map_scrub_id _ (sanitize_no_replaced s)).
  rewrite (str_strip_id _ _ (sanitize_ends_clean s)).
  destruct (_sanitize_path_component s) eqn:E; [|reflexivity].
  now apply sanitize_nonempty in E.
Qed.

(** ** Reasoning about runs *)

Lemma extends_refl P t : extends P t t.
Proof. exists []. split; [reflexivity | constructor]. Qed.

Lemma extends_cons P t0 t e :
  P e = true -> extends P t0 t -> extends P t0 (e :: t).
Proof.
  intros He [tr [-> Htr]]. exists (e :: tr). split; [reflexivity|].
  constructor; assumption.
Qed.

Lemma extends_trans P t0 t1 t2 :
  extends P t0 t1 -> extends P t1 t2 -> extends P t0 t2.
Proof.
  intros [tr1 [-> H1]] [tr2 [-> H2]]. exists (tr2 ++ tr1).
  split; [apply app_assoc | apply Forall_app; split; assumption].
Qed.

Lemma extends_mono (P Q : Event -> bool) t0 t :
  (forall e, P e = true -> Q e = true) -> extends P t0 t -> extends Q t0 t.
Proof.
  intros HPQ [tr [-> H]]. exists tr. split; [reflexivity|].
  revert H. apply Forall_impl. exact HPQ.
Qed.

Section RunRules.

Context {A B : Type}.
Variable P : Event -> bool.

Lemma adds_ret (a : A) : adds P (ret a).
Proof. intros w. apply extends_refl. Qed.

Lemma adds_raise (e : Exception) : adds P (@raise A e).
Proof. intros w. apply extends_refl. Qed.

Lemma adds_diverge : adds P (@diverge A).
Proof. intros w. apply extends_refl. Qed.

Lemma adds_lift (r : Exception + A) : adds P (lift r).
Proof. destruct r; intros w; apply extends_refl. Qed.

Lemma adds_bind (m : M A) (k : A -> M B) :
  adds P m -> (forall a, adds P (k a)) -> adds P (bind m k).
Proof.
  intros Hm Hk w. unfold bind. specialize (Hm w).
  destruct (m w) as [[a|e|] w1]; simpl in *; try exact Hm.
  eapply extends_trans; [exact Hm | apply Hk].
Qed.

Lemma adds_try_except (m : M A) (h : Exception -> M A) :
  adds P m -> (forall e, adds P (h e)) -> adds P (try_except m h).
Proof.
  intros Hm Hh w. unfold try_except. specialize (Hm w).
  destruct (m w) as [[a|e|] w1]; simpl in *; try exact Hm.
  eapply extends_trans; [exact Hm | apply Hh].
Qed.

Lemma keeps_fs_ret (a : A) : keeps_fs (ret a).
Proof. intros w. reflexivity. Qed.

Lemma keeps_fs_raise (e : Exception) : keeps_fs (@raise A e).
Proof. intros w. reflexivity. Qed.

Lemma keeps_fs_diverge : keeps_fs (@diverge A).
Proof. intros w. reflexivity. Qed.

Lemma keeps_fs_lift (r : Exception + A) : keeps_fs (lift r).
Proof. destruct r; intros w; reflexivity. Qed.

Lemma keeps_fs_bind (m : M A) (k : A -> M B) :
  keeps_fs m -> (forall a, keeps_fs (k a)) -> keeps_fs (bind m k).
Proof.
  intros Hm Hk w. unfold bind. specialize (Hm w).
  destruct (m w) as [[a|e|] w1]; simpl in *; try exact Hm.
  rewrite Hk. exact Hm.
Qed.

Lemma keeps_fs_try_except (m : M A) (h : Exception -> M A) :
  keeps_fs m -> (forall e, keeps_fs (h e)) -> keeps_fs (try_except m h).
Proof.
  intros Hm Hh w. unfold try_except. specialize (Hm w).
  destruct (m w) as [[a|e|] w1]; simpl in *; try exact Hm.
  rewrite Hh. exact Hm.
Qed.

Lemma returns_ret (a : A) : returns (ret a).
Proof. intros w. exists a. reflexivity. Qed.

Lemma returns_bind (m : M A) (k : A -> M B) :
  returns m -> (forall a, returns (k a)) -> returns (bind m k).
Proof.
  intros Hm Hk w. unfold bind. destruct (Hm w) as [a Ha].
  destruct (m w) as [o w1]. simpl in Ha. subst o. apply Hk.
Qed.

End RunRules.

Lemma adds_emit P (e : Event) : P e = true -> adds P (emit e).
Proof. intros He w. simpl. apply extends_cons; [exact He | apply extends_refl]. Qed.

Lemma adds_get_fs P : adds P get_fs.
Proof. intros w. apply extends_refl. Qed.

Lemma adds_put_fs P f : adds P (put_fs f).
Proof. intros w. apply extends_refl. Qed.

Lemma adds_mono (P Q : Event -> bool) {A} (m : M A) :
  (forall e, P e = true -> Q e = true) -> adds P m -> adds Q m.
Proof. intros HPQ H w. eapply extends_mono; [exact HPQ | apply H]. Qed.

Lemma keeps_fs_emit (e : Event) : keeps_fs (emit e).
Proof. intros w. reflexivity. Qed.

Lemma keeps_fs_get_fs : keeps_fs get_fs.
Proof. intros w. reflexivity. Qed.

Lemma returns_emit (e : Event) : returns (emit e).
Proof. intros w. exists tt. reflexivity. Qed.

Lemma returns_get_fs : returns get_fs.
Proof. intros w. exists (fs w). reflexivity. Qed.

Lemma returns_put_fs f : returns (put_fs f).
Proof. intros w. exists tt. reflexivity. Qed.

(** A block that keeps its variable always hands it on. *)
Lemma returns_try_keeping {S} (initial : S) (body : M (Interrupted S)) :
  terminates body -> returns (try_keeping initial body).
Proof.
  intros Hb w. unfold try_keeping, try_except. specialize (Hb w).
  destruct (body w) as [[a|e|] w1]; simpl in *.
  - exists a. reflexivity.
  - exists (initial, Some e). reflexivity.
  - congruence.
Qed.

Section Termination.

Context {A B : Type}.

Lemma terminates_ret (a : A) : terminates (ret a).
Proof. intros w. discriminate. Qed.

Lemma terminates_raise (e : Exception) : terminates (@raise A e).
Proof. intros w. discriminate. Qed.

Lemma terminates_lift (r : Exception + A) : terminates (lift r).
Proof. destruct r; intros w; discriminate. Qed.

Lemma terminates_bind (m : M A) (k : A -> M B) :
  terminates m -> (forall a, terminates (k a)) -> terminates (bind m k).
Proof.
  intros Hm Hk w. unfold bind. specialize (Hm w).
  destruct (m w) as [[a|e|] w1]; simpl in *;
    [apply Hk | discriminate | congruence].
Qed.

Lemma terminates_try_except (m : M A) (h : Exception -> M A) :
  terminates m -> (forall e, terminates (h e)) -> terminates (try_except m h).
Proof.
  intros Hm Hh w. unfold try_except. specialize (Hm w).
  destruct (m w) as [[a|e|] w1]; simpl in *;
    [discriminate | apply Hh | congruence].
Qed.

Lemma returns_terminates (m : M A) : returns m -> terminates m.
Proof. intros H w. destruct (H w) as [a ->]. discriminate. Qed.

Lemma returns_try_except (m : M A) (h : Exception -> M A) :
  terminates m -> (forall e, returns (h e)) -> returns (try_except m h).
Proof.
  intros Hm Hh w. unfold try_except. specialize (Hm w).
  destruct (m w) as [[a|e|] w1]; simpl in *;
    [exists a; reflexivity | apply Hh | congruence].
Qed.

End Termination.

Create HintDb run discriminated.

#[local] Hint Resolve adds_ret adds_raise adds_diverge adds_lift
  adds_get_fs adds_put_fs keeps_fs_ret keeps_fs_raise keeps_fs_diverge
  keeps_fs_lift keeps_fs_emit keeps_fs_get_fs returns_ret returns_emit
  returns_get_fs returns_put_fs terminates_ret terminates_raise
  terminates_lift : run.

(** One step through a computation, for any of the four judgements. *)
Ltac run_step :=
  match goal with
  | |- _ (bind _ _) =>
      first [ apply adds_bind | apply keeps_fs_bind
            | apply returns_bind | apply terminates_bind ];
      [ | intros ? ]
  | |- _ (try_except _ _) =>
      first [ apply adds_try_except | apply keeps_fs_try_except
            | apply terminates_try_except | apply returns_try_except ];
      [ | intros ? ]
  | |- _ (try_keeping _ _) => unfold try_keeping
  | |- adds _ (emit _) => apply adds_emit; reflexivity
  | |- adds _ (log _ _ _) => apply adds_emit; reflexivity
  | |- keeps_fs (log _ _ _) => apply keeps_fs_emit
  | |- returns (log _ _ _) => apply returns_emit
  | |- terminates (log _ _ _) => apply returns_terminates, returns_emit
  | |- terminates (emit _) => apply returns_terminates, returns_emit
  | |- terminates get_fs => apply returns_terminates, returns_get_fs
  | |- terminates (put_fs _) => apply returns_terminates, returns_put_fs
  | |- _ (if ?b then _ else _) => destruct b
  | |- _ (match ?x with _ => _ end) => destruct x
  | |- _ => solve [ eauto with run ]
  end.

Ltac run := repeat run_step.

Arguments lit : simpl never.
Arguments str_of_nat : simpl never.
Arguments str_of_path : simpl never.

Section Outcomes.

Context {A B : Type}.
Variable f : FS.

Lemma ends_with_ret (a : A) : ends_with f (ret a) (Return a).
Proof. intros w Hw. split; [reflexivity | exact Hw]. Qed.

Lemma ends_with_raise (e : Exception) : ends_with f (@raise A e) (Raise e).
Proof. intros w Hw. split; [reflexivity | exact Hw]. Qed.

Lemma ends_with_lift (r : Exception + A) :
  ends_with f (lift r) (outcome_of r).
Proof. destruct r; intros w Hw; (split; [reflexivity | exact Hw]). Qed.

Lemma ends_with_bind (m : M A) (k : A -> M B) a o :
  ends_with f m (Return a) -> ends_with f (k a) o ->
  ends_with f (bind m k) o.
Proof.
  intros Hm Hk w Hw. unfold bind. destruct (Hm w Hw) as [H1 H2].
  destruct (m w) as [o1 w1]. simpl in *. subst o1. apply Hk, H2.
Qed.

Lemma ends_with_bind_raise (m : M A) (k : A -> M B) e :
  ends_with f m (Raise e) -> ends_with f (bind m k) (Raise e).
Proof.
  intros Hm w Hw. unfold bind. destruct (Hm w Hw) as [H1 H2].
  destruct (m w) as [o1 w1]. simpl in *. subst o1. simpl. auto.
Qed.

Lemma ends_with_try_return (m : M A) (h : Exception -> M A) a :
  ends_with f m (Return a) -> ends_with f (try_except m h) (Return a).
Proof.
  intros Hm w Hw. unfold try_except. destruct (Hm w Hw) as [H1 H2].
  destruct (m w) as [o1 w1]. simpl in *. subst o1. simpl. auto.
Qed.

Lemma ends_with_try_raise (m : M A) (h : Exception -> M A) e o :
  ends_with f m (Raise e) -> ends_with f (h e) o ->
  ends_with f (try_except m h) o.
Proof.
  intros Hm Hh w Hw. unfold try_except. destruct (Hm w Hw) as [H1 H2].
  destruct (m w) as [o1 w1]. simpl in *. subst o1. apply Hh, H2.
Qed.

End Outcomes.

Lemma ends_with_emit f (e : Event) : ends_with f (emit e) (Return tt).
Proof. intros w Hw. split; [reflexivity | exact Hw]. Qed.

Lemma ends_with_log f l lv msg : ends_with f (log l lv msg) (Return tt).
Proof. apply ends_with_emit. Qed.

Lemma ends_with_get_fs f : ends_with f get_fs (Return f).
Proof. intros w Hw. split; [simpl; now f_equal | exact Hw]. Qed.

Lemma ends_with_path_exists f p :
  ends_with f (path_exists p) (Return (fs_exists f p)).
Proof.
  unfold path_exists. eapply ends_with_bind;
    [apply ends_with_get_fs | apply ends_with_ret].
Qed.

Lemma ends_with_path_is_file f p :
  ends_with f (path_is_file p) (Return (fs_is_file f p)).
Proof.
  unfold path_is_file. eapply ends_with_bind;
    [apply ends_with_get_fs | apply ends_with_ret].
Qed.

Lemma ends_with_path_is_dir f p :
  ends_with f (path_is_dir p) (Return (fs_is_dir f p)).
Proof.
  unfold path_is_dir. eapply ends_with_bind;
    [apply ends_with_get_fs | apply ends_with_ret].
Qed.

(** The shape of a run that is known by its outcome and by its events. *)
Lemma run_shape f P {A} (m : M A) o w :
  ends_with f m o -> adds P m -> fs w = f ->
  exists tr, m w = (o, mkWorld f (tr ++ trace w))
             /\ Forall (fun e => P e = true) tr.
Proof.
  intros Ho Ha Hw. destruct (Ho w Hw) as [H1 H2].
  destruct (Ha w) as [tr [H3 H4]]. exists tr. split; [|exact H4].
  destruct (m w) as [o1 [f1 t1]]. simpl in *. now subst.
Qed.

#[local] Hint Resolve ends_with_ret ends_with_raise ends_with_lift
  ends_with_emit ends_with_log ends_with_get_fs ends_with_path_exists
  ends_with_path_is_file ends_with_path_is_dir : run.

(** Steps through a computation whose outcome is being computed. *)
Ltac outcome_step :=
  match goal with
  | |- ends_with _ (bind _ _) _ =>
      first [ eapply ends_with_bind; [ solve [ eauto with run ] | ]
            | eapply ends_with_bind_raise; solve [ eauto with run ] ]
  | |- ends_with _ _ _ => solve [ eauto with run ]
  end.

(** ** The extractor *)

Section Extractor.

Variable ext : Externals.
Variable self : ContentExtractor.

Lemma pdf_pages_loop_outcome f pages : forall i text,
  ends_with f (pdf_pages_loop pages i text)
            (Return (text ++ pages_text pages, pages_failure pages)).
Proof.
  induction pages as [|page rest IH]; intros i text; simpl.
  - rewrite app_nil_r. apply ends_with_ret.
  - outcome_step. destruct page as [e|extracted].
    + rewrite app_nil_r. apply ends_with_ret.
    + destruct extracted as [|c l]; simpl.
      * apply IH.
      * outcome_step.
        pose proof (IH (S i) (text ++ (c :: l) ++ [newline])) as H.
        rewrite <- app_assoc in H. exact H.
Qed.

Lemma pdf_pages_loop_adds pages : forall i text,
  adds native_event (pdf_pages_loop pages i text).
Proof.
  induction pages as [|page rest IH]; intros i text; simpl; run.
Qed.

Lemma call_PdfReader_outcome f p :
  ends_with f (call_PdfReader ext p) (outcome_of (pdf_pages ext f p)).
Proof.
  unfold call_PdfReader, pdf_pages. do 2 outcome_step.
  destruct (fs_open f p) as [e|content].
  - apply ends_with_bind_raise. apply (ends_with_lift f (inl e)).
  - eapply ends_with_bind; [apply (ends_with_lift f (inr content))|].
    apply ends_with_lift.
Qed.

Lemma call_PdfReader_adds p : adds native_event (call_PdfReader ext p).
Proof. unfold call_PdfReader. run. Qed.

Lemma extract_pdf_text_outcome f p :
  ends_with f (_extract_pdf_text ext self p)
            (Return (native_pdf_text ext f p)).
Proof.
  unfold _extract_pdf_text, native_pdf_text, try_keeping.
  pose proof (call_PdfReader_outcome f p) as Hr.
  destruct (pdf_pages ext f p) as [e|pages]; simpl in Hr.
  - eapply ends_with_bind.
    + eapply ends_with_try_raise.
      * apply ends_with_bind_raise. exact Hr.
      * apply ends_with_ret.
    + simpl. outcome_step. apply ends_with_ret.
  - eapply ends_with_bind.
    + apply ends_with_try_return. eapply ends_with_bind; [exact Hr|].
      outcome_step. apply (pdf_pages_loop_outcome f pages 1 []).
    + simpl. destruct (pages_failure pages); outcome_step; apply ends_with_ret.
Qed.

Lemma extract_pdf_text_adds p : adds native_event (_extract_pdf_text ext self p).
Proof.
  unfold _extract_pdf_text, try_keeping.
  pose proof call_PdfReader_adds. pose proof pdf_pages_loop_adds. run.
Qed.

Lemma ocr_images_loop_outcome f images : forall i text,
  ends_with f (ocr_images_loop ext self images i text)
            (Return (text ++ images_text ext (ocr_languages self) images,
                     images_failure ext (ocr_languages self) images)).
Proof.
  induction images as [|img rest IH]; intros i text; simpl.
  - rewrite app_nil_r. apply ends_with_ret.
  - outcome_step.
    destruct (image_to_string ext img (ocr_languages self)) as [e|t].
    + rewrite app_nil_r. apply ends_with_ret.
    + outcome_step. rewrite app_assoc. apply IH.
Qed.

Lemma ocr_images_loop_adds images : forall i text,
  adds ocr_event (ocr_images_loop ext self images i text).
Proof.
  induction images as [|img rest IH]; intros i text; simpl; run.
Qed.

Lemma call_convert_from_path_outcome f p :
  ends_with f (call_convert_from_path ext p)
    (outcome_of (match fs_open f p with
                 | inl e => inl e
                 | inr content => convert_from_path ext content
                 end)).
Proof.
  unfold call_convert_from_path. do 2 outcome_step.
  destruct (fs_open f p) as [e|content].
  - apply ends_with_bind_raise. apply (ends_with_lift f (inl e)).
  - eapply ends_with_bind; [apply (ends_with_lift f (inr content))|].
    apply ends_with_lift.
Qed.

Lemma call_Image_open_outcome f p :
  ends_with f (call_Image_open ext p)
    (outcome_of (match fs_open f p with
                 | inl e => inl e
                 | inr content => Image_open ext content
                 end)).
Proof.
  unfold call_Image_open. do 2 outcome_step.
  destruct (fs_open f p) as [e|content].
  - apply ends_with_bind_raise. apply (ends_with_lift f (inl e)).
  - eapply ends_with_bind; [apply (ends_with_lift f (inr content))|].
    apply ends_with_lift.
Qed.

(** The images the OCR stage loads, as a computation. *)
Lemma load_images_outcome f p :
  ends_with f
    (if str_eqb (str_lower (path_suffix p)) (lit ".pdf") then
       log L_extractor DEBUG (lit "Converting PDF to images for OCR") ;;
       images <- call_convert_from_path ext p ;;
       log L_extractor INFO
           (lit "PDF converted to " ++ str_of_nat (length images)
            ++ lit " images") ;;
       ret images
     else
       log L_extractor DEBUG (lit "Loading image file: " ++ path_name p) ;;
       img <- call_Image_open ext p ;;
       ret [img])
    (outcome_of (ocr_images ext f p)).
Proof.
  unfold ocr_images, is_pdf.
  pose proof (call_convert_from_path_outcome f p) as Hc.
  pose proof (call_Image_open_outcome f p) as Hi.
  destruct (str_eqb (str_lower (path_suffix p)) (lit ".pdf")).
  - outcome_step. destruct (fs_open f p) as [e|content]; simpl in Hc.
    + apply ends_with_bind_raise. exact Hc.
    + destruct (convert_from_path ext content) as [e|images]; simpl in Hc.
      * apply ends_with_bind_raise. exact Hc.
      * eapply ends_with_bind; [exact Hc|]. outcome_step. apply ends_with_ret.
  - outcome_step. destruct (fs_open f p) as [e|content]; simpl in Hi.
    + apply ends_with_bind_raise. exact Hi.
    + destruct (Image_open ext content) as [e|img]; simpl in Hi.
      * apply ends_with_bind_raise. exact Hi.
      * eapply ends_with_bind; [exact Hi|]. apply ends_with_ret.
Qed.

Lemma extract_via_ocr_outcome f p :
  ends_with f (_extract_via_ocr ext self p) (Return (ocr_text ext self f p)).
Proof.
  unfold _extract_via_ocr, ocr_text, try_keeping.
  pose proof (load_images_outcome f p) as Hl.
  destruct (ocr_images ext f p) as [e|images]; simpl in Hl.
  - eapply ends_with_bind.
    + eapply ends_with_try_raise.
      * apply ends_with_bind_raise. exact Hl.
      * apply ends_with_ret.
    + simpl. outcome_step. apply ends_with_ret.
  - eapply ends_with_bind.
    + apply ends_with_try_return. eapply ends_with_bind; [exact Hl|].
      apply (ocr_images_loop_outcome f images 1 []).
    + simpl. destruct (images_failure ext (ocr_languages self) images);
        outcome_step; apply ends_with_ret.
Qed.

Lemma extract_via_ocr_adds p : adds ocr_event (_extract_via_ocr ext self p).
Proof.
  unfold _extract_via_ocr, try_keeping, call_convert_from_path,
    call_Image_open.
  pose proof ocr_images_loop_adds. run.
Qed.

End Extractor.

(** ** Recorded calls *)

Lemma adds_call P {A} (e : Event) (m : M A) :
  P e = true -> adds P m -> adds P (call e m).
Proof.
  intros He Hm w. unfold call.
  eapply extends_trans; [|apply Hm]. simpl.
  apply extends_cons; [exact He | apply extends_refl].
Qed.

Lemma keeps_fs_call {A} (e : Event) (m : M A) :
  keeps_fs m -> keeps_fs (call e m).
Proof. intros Hm w. unfold call. now rewrite Hm. Qed.

Lemma returns_call {A} (e : Event) (m : M A) :
  returns m -> returns (call e m).
Proof. intros Hm w. apply Hm. Qed.

Lemma terminates_call {A} (e : Event) (m : M A) :
  terminates m -> terminates (call e m).
Proof. intros Hm w. apply Hm. Qed.

Lemma ends_with_call f {A} (e : Event) (m : M A) o :
  ends_with f m o -> ends_with f (call e m) o.
Proof. intros Hm w Hw. unfold call. apply Hm. exact Hw. Qed.

(** The shape of a recorded call: the entry comes first. *)
Lemma call_shape f P {A} (e : Event) (m : M A) o w :
  ends_with f m o -> adds P m -> fs w = f ->
  exists tr, call e m w = (o, mkWorld f (tr ++ e :: trace w))
             /\ Forall (fun e => P e = true) tr.
Proof.
  intros Ho Ha Hw. unfold call.
  apply (run_shape f P m o (mkWorld (fs w) (e :: trace w)) Ho Ha Hw).
Qed.

Ltac call_step :=
  match goal with
  | |- adds _ (call _ _) => apply adds_call; [reflexivity|]
  | |- keeps_fs (call _ _) => apply keeps_fs_call
  | |- returns (call _ _) => apply returns_call
  | |- terminates (call _ _) => apply terminates_call
  end.

Ltac run ::= repeat (call_step || run_step).

Arguments _extract_pdf_text : simpl never.
Arguments _extract_via_ocr : simpl never.

(** Stepping through a [bind] whose first run is known. *)
Lemma bind_run {A B} (m : M A) (k : A -> M B) w a w1 :
  m w = (Return a, w1) -> bind m k w = k a w1.
Proof. intros H. unfold bind. now rewrite H. Qed.

Lemma bind_run_raise {A B} (m : M A) (k : A -> M B) w e w1 :
  m w = (Raise e, w1) -> bind m k w = (Raise e, w1).
Proof. intros H. unfold bind. now rewrite H. Qed.

Lemma bind_assoc_run {A B C} (m : M A) (k1 : A -> M B) (k2 : B -> M C) w :
  bind (bind m k1) k2 w = bind m (fun x => bind (k1 x) k2) w.
Proof. unfold bind. destruct (m w) as [[a|e|] w1]; reflexivity. Qed.

Ltac bind_step :=
  repeat match goal with
         | |- context [bind (bind ?m ?k1) ?k2 ?w] =>
             rewrite (bind_assoc_run m k1 k2 w)
         end;
  erewrite bind_run by reflexivity; cbv beta; cbn [fs trace].

Lemma native_event_not_ocr e : native_event e = true -> is_ocr_call e = false.
Proof. destruct e as [[] ? ?| | | | | | | | | | | | | | | | | | |]; simpl; congruence. Qed.

Lemma native_event_extractor e :
  native_event e = true -> extractor_event e = true.
Proof.
  unfold extractor_event. intros ->. destruct e; reflexivity.
Qed.

Lemma ocr_event_extractor e : ocr_event e = true -> extractor_event e = true.
Proof.
  unfold extractor_event. intros ->. destruct e; auto using orb_true_r.
Qed.

Lemma log_not_ocr_call e : is_log e = true -> is_ocr_call e = false.
Proof. destruct e; simpl; congruence. Qed.

Lemma existsb_false_Forall {X} (P Q : X -> bool) (l : list X) :
  (forall x, P x = true -> Q x = false) ->
  Forall (fun x => P x = true) l -> existsb Q l = false.
Proof.
  intros HPQ H. induction H as [|x l Hx _ IH]; simpl; [reflexivity|].
  now rewrite (HPQ x Hx), IH.
Qed.

Lemma Forall_mono_bool {X} (P Q : X -> bool) (l : list X) :
  (forall x, P x = true -> Q x = true) ->
  Forall (fun x => P x = true) l -> Forall (fun x => Q x = true) l.
Proof. intros H. apply Forall_impl. exact H. Qed.

Section ExtractContent.

Variable ext : Externals.
Variable self : ContentExtractor.

(** A missing file: [extract_content] logs the error and raises it, and
    nothing else happens. *)
Lemma extract_content_missing p w :
  fs_exists (fs w) p = false ->
  exists msg,
    extract_content ext self p w
    = (Raise (Exc FileNotFoundError msg),
       mkWorld (fs w) (Log L_extractor ERROR msg :: trace w)).
Proof.
  intros Hex. eexists. unfold extract_content.
  bind_step. rewrite Hex. cbn [negb].
  bind_step. reflexivity.
Qed.

(** An existing file: [extract_content] returns [extracted_text]; the OCR
    stage is entered exactly when the native text is too short. *)
Lemma extract_content_run p w :
  fs_exists (fs w) p = true ->
  exists tr,
    extract_content ext self p w
    = (Return (extracted_text ext self (fs w) p),
       mkWorld (fs w) (tr ++ trace w))
    /\ Forall (fun e => extractor_event e = true) tr
    /\ ocr_invoked tr = too_short self (native_text ext (fs w) p).
Proof.
  intros Hex. unfold extract_content, extracted_text.
  bind_step. rewrite Hex. cbn [negb].
  bind_step.
  (* the native stage *)
  assert (Hnat : exists tr1,
    (if str_eqb (str_lower (path_suffix p)) (lit ".pdf")
     then call (Call_extract_pdf_text p) (_extract_pdf_text ext self p)
     else ret [])
      (mkWorld (fs w)
         (Log L_extractor DEBUG
              (lit "Starting content extraction for: " ++ path_name p)
          :: trace w))
    = (Return (native_text ext (fs w) p),
       mkWorld (fs w)
         (tr1 ++ Log L_extractor DEBUG
                     (lit "Starting content extraction for: " ++ path_name p)
              :: trace w))
    /\ Forall (fun e => native_event e = true) tr1).
  { unfold native_text, is_pdf.
    destruct (str_eqb (str_lower (path_suffix p)) (lit ".pdf")).
    - destruct (call_shape (fs w) native_event (Call_extract_pdf_text p)
                  (_extract_pdf_text ext self p) _
                  (mkWorld (fs w)
                     (Log L_extractor DEBUG
                        (lit "Starting content extraction for: "
                         ++ path_name p) :: trace w))
                  (extract_pdf_text_outcome ext self (fs w) p)
                  (extract_pdf_text_adds ext self p) eq_refl)
        as [tr [E F]].
      exists (tr ++ [Call_extract_pdf_text p]). split.
      + rewrite E. simpl. now rewrite <- app_assoc.
      + apply Forall_app. split; [exact F | repeat constructor].
    - exists []. split; [reflexivity | constructor]. }
  destruct Hnat as [tr1 [E1 F1]].
  rewrite (bind_run _ _ _ _ _ E1).
  unfold too_short.
  destruct (Z.of_nat (length (str_strip_ws (native_text ext (fs w) p)))
            <? min_content_length self)%Z.
  - (* the OCR stage *)
    bind_step. rewrite bind_assoc_run.
    match goal with
    | |- context [bind (call ?e ?m) _ ?W] =>
        destruct (call_shape (fs w) ocr_event e m _ W
                    (extract_via_ocr_outcome ext self (fs w) p)
                    (extract_via_ocr_adds ext self p) eq_refl)
          as [tr2 [E2 F2]]
    end.
    rewrite (bind_run _ _ _ _ _ E2).
    bind_step. bind_step.
    eexists (_ :: tr2 ++ _ :: _ :: tr1 ++ [_]).
    split; [|split].
    + simpl. rewrite <- !app_assoc. simpl. rewrite <- !app_assoc. reflexivity.
    + constructor; [reflexivity|]. apply Forall_app. split.
      * revert F2. apply Forall_mono_bool, ocr_event_extractor.
      * constructor; [reflexivity|]. constructor; [reflexivity|].
        apply Forall_app. split; [|repeat constructor].
        revert F1. apply Forall_mono_bool, native_event_extractor.
    + unfold ocr_invoked. simpl. rewrite existsb_app. simpl.
      apply orb_true_r.
  - bind_step. bind_step.
    eexists (_ :: tr1 ++ [_]).
    split; [|split].
    + simpl. rewrite <- !app_assoc. reflexivity.
    + constructor; [reflexivity|]. apply Forall_app. split.
      * revert F1. apply Forall_mono_bool, native_event_extractor.
      * repeat constructor.
    + unfold ocr_invoked. simpl. rewrite existsb_app. simpl.
      rewrite orb_false_r.
      apply (existsb_false_Forall native_event); [|exact F1].
      apply native_event_not_ocr.
Qed.

End ExtractContent.

(** ** Claims about the extractor *)

Lemma pages_text_no_failure pages :
  pages_failure pages = None ->
  pages_text pages = all_readable_pages_text pages.
Proof.
  induction pages as [|[e|t] rest IH]; simpl; intros H;
    [reflexivity | discriminate | now rewrite IH].
Qed.

Lemma pages_text_until_failure before e after :
  pages_failure before = None ->
  pages_text (before ++ inl e :: after) = all_readable_pages_text before.
Proof.
  induction before as [|[e'|t] rest IH]; simpl; intros H;
    [reflexivity | discriminate | now rewrite IH].
Qed.

(** C4, as stated, fails: with three pages of which the second fails, the
    text of the third page is not in the result. *)
Lemma C4_counterexample :
  ~ (forall ext self p w pages,
       pdf_pages ext (fs w) p = inr pages ->
       fst (_extract_pdf_text ext self p w)
       = Return (all_readable_pages_text pages)).
Proof.
  intros H.
  specialize (H sample_externals (mkContentExtractor (lit "deu+eng") 50)
                [lit "in"; lit "scan.PDF"] sample_world _ eq_refl).
  vm_compute in H. discriminate H.
Qed.

(** C4 (amended): the native PDF stage never raises.  When the file cannot
    be read its text is empty.  Otherwise the pages contribute in order
    up to the first page whose extraction fails: that failure is caught,
    the text of the pages in front of it is kept and the pages behind it
    are not read; when no page fails every page contributes. *)
Theorem C4_pdf_text_until_first_failure ext self p w :
  (exists tr,
     _extract_pdf_text ext self p w
     = (Return (native_pdf_text ext (fs w) p),
        mkWorld (fs w) (tr ++ trace w)))
  /\ (forall e, pdf_pages ext (fs w) p = inl e ->
                native_pdf_text ext (fs w) p = [])
  /\ (forall pages, pdf_pages ext (fs w) p = inr pages ->
        native_pdf_text ext (fs w) p = pages_text pages
        /\ (pages_failure pages = None ->
            pages_text pages = all_readable_pages_text pages)
        /\ (forall before e after,
              pages = before ++ inl e :: after ->
              pages_failure before = None ->
              pages_text pages = all_readable_pages_text before)).
Proof.
  split; [|split].
  - destruct (run_shape (fs w) native_event (_extract_pdf_text ext self p) _ w
                (extract_pdf_text_outcome ext self (fs w) p)
                (extract_pdf_text_adds ext self p) eq_refl) as [tr [E _]].
    exists tr. exact E.
  - intros e He. unfold native_pdf_text. now rewrite He.
  - intros pages Hp. unfold native_pdf_text. rewrite Hp.
    split; [reflexivity|]. split.
    + apply pages_text_no_failure.
    + intros before e after -> Hb. now apply pages_text_until_failure.
Qed.


(** C5: [extract_content] raises if and only if the file does not exist.
    The check is made once, at entry: for a missing file the error is
    logged and raised and no engine is called.  For an existing file a
    string is returned, whatever the engines do: both stages always
    return, with the text gathered before a failure. *)
Theorem C5_extract_content_raises_iff_missing ext self p w :
  ((exists e, fst (extract_content ext self p w) = Raise e)
   <-> fs_exists (fs w) p = false)
  /\ (fs_exists (fs w) p = false ->
      exists msg,
        extract_content ext self p w
        = (Raise (Exc FileNotFoundError msg),
           mkWorld (fs w) (Log L_extractor ERROR msg :: trace w)))
  /\ (fs_exists (fs w) p = true ->
      exists tr,
        extract_content ext self p w
        = (Return (extracted_text ext self (fs w) p),
           mkWorld (fs w) (tr ++ trace w)))
  /\ returns (_extract_pdf_text ext self p)
  /\ returns (_extract_via_ocr ext self p).
Proof.
  split; [|split; [|split; [|split]]].
  - destruct (fs_exists (fs w) p) eqn:Hex.
    + destruct (extract_content_run ext self p w Hex) as [tr [E _]].
      rewrite E. simpl. split; [intros [e He]; discriminate | discriminate].
    + destruct (extract_content_missing ext self p w Hex) as [msg E].
      rewrite E. simpl. split; [reflexivity | intros _; eauto].
  - apply extract_content_missing.
  - intros Hex.
    destruct (extract_content_run ext self p w Hex) as [tr [E _]].
    exists tr. exact E.
  - intros w0. exists (native_pdf_text ext (fs w0) p).
    apply (extract_pdf_text_outcome ext self (fs w0) p w0 eq_refl).
  - intros w0. exists (ocr_text ext self (fs w0) p).
    apply (extract_via_ocr_outcome ext self (fs w0) p w0 eq_refl).
Qed.

(** ** Resolving the target path *)

Lemma str_split_no_sep (sep : ascii) (s : str) :
  ~ In sep s -> str_split sep s = [s].
Proof.
  induction s as [|c s IH]; simpl; intros H; [reflexivity|].
  destruct (Ascii.eqb c sep) eqn:E.
  - apply Ascii.eqb_eq in E. subst c. exfalso. apply H. now left.
  - rewrite IH; [reflexivity|]. intros Hin. apply H. now right.
Qed.

(** Joining a directory with one proper component appends it. *)
Lemma joinpath_component (dir : Path) (c : ascii) (s : str) :
  ~ In "/"%char (c :: s) -> c <> "."%char ->
  joinpath dir (c :: s) = dir ++ [c :: s].
Proof.
  intros Hsep Hdot. unfold joinpath.
  assert (Hc : Ascii.eqb c "/" = false).
  { apply Ascii.eqb_neq. intros ->. apply Hsep. now left. }
  assert (Hst : str_startswith (c :: s) (lit "/") = false).
  { change (str_startswith (c :: s) (lit "/"))
      with (Ascii.eqb c "/" && str_startswith s []).
    now rewrite Hc. }
  rewrite Hst.
  unfold Path_of_str. rewrite (str_split_no_sep _ _ Hsep). simpl.
  unfold str_eqb.
  destruct (list_eq_dec ascii_dec (c :: s) (lit ".")) as [E|_];
    [|reflexivity].
  injection E as E _. contradiction.
Qed.

Lemma uint_digits_no_sep (d : Decimal.uint) :
  ~ In "/"%char
       (String.list_ascii_of_string (DecimalString.NilEmpty.string_of_uint d)).
Proof.
  induction d; simpl; [tauto | ..];
    (intros [H|H]; [discriminate H | auto]).
Qed.

Lemma str_of_nat_no_sep (n : nat) : ~ In "/"%char (str_of_nat n).
Proof. apply uint_digits_no_sep. Qed.

Lemma list_ascii_of_string_inj (a b : String.string) :
  String.list_ascii_of_string a = String.list_ascii_of_string b -> a = b.
Proof.
  intros H. rewrite <- (String.string_of_list_ascii_of_string a),
    <- (String.string_of_list_ascii_of_string b). now rewrite H.
Qed.

Lemma str_of_nat_inj (j k : nat) : str_of_nat j = str_of_nat k -> j = k.
Proof.
  unfold str_of_nat. intros H. apply list_ascii_of_string_inj in H.
  assert (Hu : Nat.to_uint j = Nat.to_uint k).
  { pose proof (DecimalString.NilEmpty.usu (Nat.to_uint j)) as Hj.
    pose proof (DecimalString.NilEmpty.usu (Nat.to_uint k)) as Hk.
    rewrite H in Hj. rewrite Hj in Hk. now injection Hk. }
  rewrite <- (DecimalNat.Unsigned.of_to j), <- (DecimalNat.Unsigned.of_to k).
  now rewrite Hu.
Qed.

Section TargetNames.

Variable target_dir : Path.
Variable filename extension : str.
Hypothesis extension_no_sep : ~ In "/"%char extension.

Let safe := _sanitize_path_component filename.

Lemma safe_head : exists c s, safe = c :: s
  /\ c <> "."%char /\ ~ In "/"%char (c :: s).
Proof.
  subst safe.
  pose proof (sanitize_nonempty filename) as Hne.
  pose proof (sanitize_ends_clean filename) as [Hs _].
  pose proof (sanitize_no_replaced filename) as Hr.
  destruct (_sanitize_path_component filename) as [|c s]; [congruence|].
  exists c, s. split; [reflexivity|]. split.
  - intros ->. discriminate Hs.
  - intros Hin. rewrite Forall_forall in Hr. specialize (Hr _ Hin).
    discriminate Hr.
Qed.

Lemma base_path_shape :
  base_path target_dir safe extension = target_dir ++ [safe ++ extension].
Proof.
  unfold base_path. destruct safe_head as [c [s [-> [Hdot Hsep]]]].
  apply joinpath_component; [|exact Hdot].
  change ((c :: s) ++ extension) with (c :: s ++ extension) in *.
  intros [H|H]; [apply Hsep; now left|].
  apply in_app_or in H. destruct H as [H|H];
    [apply Hsep; now right | now apply extension_no_sep].
Qed.

Lemma candidate_shape k :
  candidate target_dir safe extension k
  = target_dir ++ [safe ++ lit "_" ++ str_of_nat k ++ extension].
Proof.
  unfold candidate. destruct safe_head as [c [s [-> [Hdot Hsep]]]].
  apply joinpath_component; [|exact Hdot].
  change ((c :: s) ++ lit "_" ++ str_of_nat k ++ extension)
    with (c :: s ++ lit "_" ++ str_of_nat k ++ extension).
  intros [H|H]; [apply Hsep; now left|].
  apply in_app_or in H. destruct H as [H|H]; [apply Hsep; now right|].
  apply in_app_or in H. destruct H as [H|H].
  { destruct H as [H|[]]. discriminate H. }
  apply in_app_or in H. destruct H as [H|H];
    [now apply (str_of_nat_no_sep k) | now apply extension_no_sep].
Qed.

(** Different counters give different paths. *)
Lemma candidate_inj j k :
  candidate target_dir safe extension j = candidate target_dir safe extension k
  -> j = k.
Proof.
  rewrite !candidate_shape. intros H.
  apply app_inv_head in H. injection H as H.
  apply app_inv_head in H. injection H as H.
  apply app_inv_tail in H. now apply str_of_nat_inj.
Qed.

(** A path with a counter is never the path without one. *)
Lemma candidate_not_base k :
  candidate target_dir safe extension k <> base_path target_dir safe extension.
Proof.
  rewrite candidate_shape, base_path_shape. intros H.
  apply app_inv_head in H. injection H as H.
  apply app_inv_head in H.
  apply (f_equal (@length ascii)) in H.
  simpl in H. rewrite length_app in H. lia.
Qed.

End TargetNames.

Section ResolveLoop.

Variable target_dir : Path.
Variable safe extension : str.

Local Abbreviation cand := (candidate target_dir safe extension).

(** The loop, entered with the counter [c] and enough fuel to reach the
    safety limit: it stops at the first free path, or at the limit. *)
Lemma resolve_loop_spec : forall fuel c target w,
  c + fuel = 1001 -> 1 <= c <= 1000 ->
  exists t c' tr,
    resolve_loop fuel target_dir safe extension target c w
    = (Return (t, c'), mkWorld (fs w) (tr ++ trace w))
    /\ ((fs_exists (fs w) target = false /\ t = target /\ c' = c /\ tr = [])
        \/ (fs_exists (fs w) target = true
            /\ exists k, c <= k <= 1000 /\ t = cand k /\ c' = k + 1
               /\ (forall j, c <= j < k -> fs_exists (fs w) (cand j) = true)
               /\ ((k < 1000 /\ fs_exists (fs w) (cand k) = false /\ tr = [])
                   \/ (k = 1000 /\ tr = [cap_warning safe])))).
Proof.
  induction fuel as [|fuel IH]; intros c target w Hf Hc; [lia|].
  cbn [resolve_loop]. bind_step.
  destruct (fs_exists (fs w) target) eqn:Hex.
  - destruct (Nat.ltb_spec 1000 (c + 1)) as [Hlim|Hlim].
    + bind_step. exists (cand c), (c + 1), [cap_warning safe].
      split; [reflexivity|]. right. split; [reflexivity|].
      exists c. repeat split; try lia. right. split; [lia | reflexivity].
    + destruct (IH (c + 1) (cand c) w) as [t [c' [tr [E H]]]]; try lia.
      exists t, c', tr. split; [exact E|]. right. split; [reflexivity|].
      destruct H as [[Hfree [-> [-> ->]]] | [Hex' [k [Hk [-> [-> [Hall Hend]]]]]]].
      * exists c. repeat split; try lia. left. repeat split; [lia | exact Hfree].
      * exists k. repeat split; try lia; [|exact Hend].
        intros j Hj. destruct (Nat.eq_dec j c) as [->|Hne];
          [exact Hex' | apply Hall; lia].
  - exists target, c, []. split; [destruct w; reflexivity|].
    left. repeat split; reflexivity.
Qed.

End ResolveLoop.

(** C1: [_resolve_target_path] always returns, leaves the file system as
    it is, and depends on it only through which of the paths it tries
    exist.  The first path tried is directory/name.ext with the sanitized
    name; when it is free it is returned.  When it is taken, the path with
    the lowest free counter 1, 2, ... is returned.  After 1000 attempts,
    that is when the plain path and the counters 1 to 999 are all taken,
    the warning is logged and the path with counter 1000 is returned
    whether it is free or not.  So the path returned is free unless the
    limit was reached, and the paths of different counters are different
    from each other and from the plain path. *)
Theorem C1_resolve_target_path self target_dir filename extension w :
  exists t tr,
    _resolve_target_path self target_dir filename extension w
    = (Return t, mkWorld (fs w) (tr ++ trace w))
    /\ Forall (fun e => is_log e = true) tr
    /\ (fs_exists (fs w)
          (base_path target_dir (_sanitize_path_component filename) extension)
        = false ->
        t = base_path target_dir (_sanitize_path_component filename) extension
        /\ tr = [])
    /\ (forall k,
          1 <= k <= 999 ->
          fs_exists (fs w)
            (base_path target_dir (_sanitize_path_component filename)
                       extension) = true ->
          (forall j, 1 <= j < k ->
             fs_exists (fs w)
               (candidate target_dir (_sanitize_path_component filename)
                          extension j) = true) ->
          fs_exists (fs w)
            (candidate target_dir (_sanitize_path_component filename)
                       extension k) = false ->
          t = candidate target_dir (_sanitize_path_component filename)
                        extension k
          /\ ~ In (cap_warning (_sanitize_path_component filename)) tr)
    /\ (fs_exists (fs w)
          (base_path target_dir (_sanitize_path_component filename) extension)
        = true ->
        (forall j, 1 <= j <= 999 ->
           fs_exists (fs w)
             (candidate target_dir (_sanitize_path_component filename)
                        extension j) = true) ->
        t = candidate target_dir (_sanitize_path_component filename)
                      extension 1000
        /\ In (cap_warning (_sanitize_path_component filename)) tr)
    /\ (fs_exists (fs w) t = false
        \/ (fs_exists (fs w)
              (base_path target_dir (_sanitize_path_component filename)
                         extension) = true
            /\ forall j, 1 <= j <= 999 ->
                 fs_exists (fs w)
                   (candidate target_dir (_sanitize_path_component filename)
                              extension j) = true))
    /\ (~ In "/"%char extension ->
        (forall j k,
           candidate target_dir (_sanitize_path_component filename)
                     extension j
           = candidate target_dir (_sanitize_path_component filename)
                       extension k -> j = k)
        /\ (forall k,
              candidate target_dir (_sanitize_path_component filename)
                        extension k
              <> base_path target_dir (_sanitize_path_component filename)
                           extension)).
Proof.
  set (safe := _sanitize_path_component filename).
  unfold _resolve_target_path. fold safe.
  destruct (resolve_loop_spec target_dir safe extension 1000 1
              (joinpath target_dir (safe ++ extension)) w)
    as [t [c' [tr [E H]]]]; try lia.
  fold (base_path target_dir safe extension) in *.
  rewrite (bind_run _ _ _ _ _ E). cbn [fst snd].
  destruct H as [[Hfree [-> [-> ->]]] | [Hex [k [Hk [-> [-> [Hall Hend]]]]]]].
  - (* the plain path is free *)
    cbn [Nat.ltb Nat.leb]. bind_step.
    exists (base_path target_dir safe extension), [].
    split; [reflexivity|]. split; [constructor|].
    split; [auto|]. split; [intros; congruence|].
    split; [intros; congruence|]. split; [now left|].
    intros Hsep. split.
    + now apply candidate_inj.
    + now apply candidate_not_base.
  - (* the plain path is taken: the counter [k] was reached *)
    replace (1 <? k + 1) with true by (symmetry; apply Nat.ltb_lt; lia).
    bind_step.
    eexists (candidate target_dir safe extension k), (_ :: tr).
    split; [reflexivity|].
    assert (Htr : Forall (fun e => is_log e = true) tr).
    { destruct Hend as [[_ [_ ->]] | [_ ->]]; repeat constructor. }
    split; [constructor; [reflexivity | exact Htr]|].
    split; [intros; congruence|].
    split; [|split; [|split]].
    + intros k0 Hk0 _ Hall0 Hfree0.
      destruct Hend as [[Hlt [Hfreek ->]] | [-> ->]].
      * assert (k0 = k).
        { destruct (Nat.lt_trichotomy k0 k) as [Hl|[He|Hg]]; [|exact He|].
          - rewrite Hall in Hfree0 by lia. discriminate.
          - rewrite Hall0 in Hfreek by lia. discriminate. }
        subst k0. split; [reflexivity|].
        intros [Hin|[]]. discriminate Hin.
      * rewrite Hall in Hfree0 by lia. discriminate.
    + intros _ Hall0.
      destruct Hend as [[Hlt [Hfreek ->]] | [-> ->]].
      * rewrite Hall0 in Hfreek by lia. discriminate.
      * split; [reflexivity|]. right. now left.
    + destruct Hend as [[Hlt [Hfreek ->]] | [-> ->]].
      * now left.
      * right. split; [exact Hex|]. intros j Hj. apply Hall. lia.
    + intros Hsep. split.
      * now apply candidate_inj.
      * now apply candidate_not_base.
Qed.

(** ** What a run leaves in place *)

Lemma grows_except_refl src f : grows_except src f f.
Proof. intros q H _. exact H. Qed.

Lemma grows_except_trans src f1 f2 f3 :
  grows_except src f1 f2 -> grows_except src f2 f3 -> grows_except src f1 f3.
Proof. intros H1 H2 q Hq Hu. apply H2; [apply H1|]; assumption. Qed.

Lemma keeps_fs_preserves src {A} (m : M A) : keeps_fs m -> preserves src m.
Proof. intros H w. rewrite H. apply grows_except_refl. Qed.

Section Preserves.

Context {A B : Type}.
Variable src : Path.

Lemma preserves_bind (m : M A) (k : A -> M B) :
  preserves src m -> (forall a, preserves src (k a)) ->
  preserves src (bind m k).
Proof.
  intros Hm Hk w. unfold bind. specialize (Hm w).
  destruct (m w) as [[a|e|] w1]; simpl in *; try exact Hm.
  eapply grows_except_trans; [exact Hm | apply Hk].
Qed.

Lemma preserves_try_except (m : M A) (h : Exception -> M A) :
  preserves src m -> (forall e, preserves src (h e)) ->
  preserves src (try_except m h).
Proof.
  intros Hm Hh w. unfold try_except. specialize (Hm w).
  destruct (m w) as [[a|e|] w1]; simpl in *; try exact Hm.
  eapply grows_except_trans; [exact Hm | apply Hh].
Qed.

Lemma preserves_call (e : Event) (m : M A) :
  preserves src m -> preserves src (call e m).
Proof.
  intros Hm w. unfold call.
  apply (Hm (mkWorld (fs w) (e :: trace w))).
Qed.

End Preserves.

(** The shape of a run that returns. *)
Lemma returning_shape P src {A} (m : M A) w :
  returns m -> adds P m -> preserves src m ->
  exists a f' tr,
    m w = (Return a, mkWorld f' (tr ++ trace w))
    /\ Forall (fun e => P e = true) tr
    /\ grows_except src (fs w) f'.
Proof.
  intros Hr Ha Hp. destruct (Hr w) as [a Ho].
  destruct (Ha w) as [tr [Ht Hf]]. specialize (Hp w).
  destruct (m w) as [o [f' t']]. simpl in *. subst.
  exists a, f', tr. auto.
Qed.

(** *** The file system operations *)

Lemma path_eqb_eq p q : path_eqb p q = true <-> p = q.
Proof.
  unfold path_eqb. destruct (list_eq_dec (list_eq_dec ascii_dec) p q);
    split; congruence.
Qed.

Lemma path_eqb_refl p : path_eqb p p = true.
Proof. now apply path_eqb_eq. Qed.

Lemma str_eqb_eq a b : str_eqb a b = true <-> a = b.
Proof.
  unfold str_eqb. destruct (list_eq_dec ascii_dec a b); split; congruence.
Qed.

Lemma fs_assoc_In (f : FS) q n :
  In (q, n) f -> exists n', fs_assoc f q = Some n'.
Proof.
  induction f as [|[p m] f IH]; simpl; [contradiction|].
  intros [H|H].
  - injection H as -> ->. rewrite path_eqb_refl. eauto.
  - destruct (path_eqb p q); eauto.
Qed.

Lemma fs_assoc_Some_In (f : FS) q n :
  fs_assoc f q = Some n -> In (q, n) f.
Proof.
  induction f as [|[p m] f IH]; simpl; [discriminate|].
  destruct (path_eqb p q) eqn:E.
  - apply path_eqb_eq in E. intros H. injection H as ->. subst. now left.
  - intros H. right. auto.
Qed.

(** A path exists when it is the root or has an entry. *)
Lemma fs_exists_iff f q :
  fs_exists f q = true <-> q = [] \/ exists n, In (q, n) f.
Proof.
  unfold fs_exists, fs_lookup. destruct q as [|c q].
  - split; auto.
  - split.
    + destruct (fs_assoc f (c :: q)) as [n|] eqn:E; [|discriminate].
      intros _. right. exists n. now apply fs_assoc_Some_In.
    + intros [H|[n H]]; [discriminate|].
      destruct (fs_assoc_In _ _ _ H) as [n' ->]. reflexivity.
Qed.

Lemma fs_add_grows src f p n : grows_except src f (fs_add f p n).
Proof.
  intros q Hq _. apply fs_exists_iff in Hq. apply fs_exists_iff.
  destruct Hq as [->|[m Hm]]; [now left|]. right.
  unfold fs_add, fs_remove.
  destruct (path_eqb q p) eqn:E.
  - apply path_eqb_eq in E. subst q. exists n. apply in_or_app. right.
    now left.
  - exists m. apply in_or_app. left. apply filter_In. split; [exact Hm|].
    simpl. now rewrite E.
Qed.

Lemma fs_mkdir_from_grows src todo : forall f done_ f',
  fs_mkdir_from f done_ todo = inr f' -> grows_except src f f'.
Proof.
  induction todo as [|c rest IH]; intros f done_ f'; simpl.
  - intros H. injection H as ->. apply grows_except_refl.
  - destruct (fs_lookup f (done_ ++ [c])) as [[content|]|].
    + discriminate.
    + apply IH.
    + intros H. eapply grows_except_trans; [|eapply IH; exact H].
      apply fs_add_grows.
Qed.

Lemma strip_prefix_refl p : strip_prefix p p = Some [].
Proof.
  induction p as [|c p IH]; simpl; [reflexivity|].
  unfold str_eqb. destruct (list_eq_dec ascii_dec c c); [exact IH|congruence].
Qed.

Lemma fs_rename_grows f src dst n :
  fs_assoc f src = Some n -> grows_except src f (fs_rename f src dst).
Proof.
  intros Hsrc q Hq Hu. apply fs_exists_iff in Hq. apply fs_exists_iff.
  destruct Hq as [->|[m Hm]]; [now left|]. right.
  unfold fs_rename. destruct (path_eqb q dst) eqn:E.
  - apply path_eqb_eq in E. subst q. exists n. apply in_map_iff.
    exists (src, n). simpl. rewrite strip_prefix_refl, app_nil_r.
    split; [reflexivity|]. apply filter_In.
    split; [now apply fs_assoc_Some_In|]. simpl. unfold is_under.
    now rewrite strip_prefix_refl.
  - exists m. apply in_map_iff. exists (q, m). simpl.
    unfold is_under in Hu.
    destruct (strip_prefix src q); [discriminate|].
    split; [reflexivity|]. apply filter_In. split; [exact Hm|].
    simpl. rewrite E. apply orb_true_r.
Qed.

Lemma fs_move_grows f src dst real f' :
  fs_move f src dst = inr (real, f') -> grows_except src f f'.
Proof.
  unfold fs_move. destruct src as [|c src].
  { intros _ q _ Hu. discriminate Hu. }
  unfold fs_lookup at 1.
  destruct (fs_assoc f (c :: src)) as [n|] eqn:Hsrc; [|discriminate].
  destruct (fs_is_dir f dst && negb (path_eqb (c :: src) dst)
            && fs_exists f _); [discriminate|].
  destruct (negb (fs_is_dir f (path_parent _))); [discriminate|].
  destruct n.
  - intros H. injection H as _ <-. eapply fs_rename_grows. exact Hsrc.
  - destruct (path_eqb (c :: src) _).
    + intros H. injection H as _ <-. apply grows_except_refl.
    + destruct (is_under (c :: src) _ || fs_exists f _); [discriminate|].
      intros H. injection H as _ <-. eapply fs_rename_grows. exact Hsrc.
Qed.

Lemma preserves_path_mkdir src p : preserves src (path_mkdir p).
Proof.
  intros w. unfold path_mkdir. do 2 bind_step. simpl fs.
  destruct (fs_makedirs (fs w) p) as [e|f'] eqn:E.
  - simpl. apply grows_except_refl.
  - simpl. unfold fs_makedirs in E. eapply fs_mkdir_from_grows. exact E.
Qed.

Lemma preserves_shutil_move src dst : preserves src (shutil_move src dst).
Proof.
  intros w. unfold shutil_move. do 2 bind_step. simpl fs.
  destruct (fs_move (fs w) src dst) as [e|[real f']] eqn:E.
  - simpl. apply grows_except_refl.
  - simpl. eapply fs_move_grows. exact E.
Qed.

Lemma ends_with_keeps_fs {A} (m : M A) (o : FS -> Outcome A) :
  (forall f, ends_with f m (o f)) -> keeps_fs m.
Proof. intros H w. now apply (H (fs w) w). Qed.

Lemma ends_with_returns {A} (m : M A) (v : FS -> A) :
  (forall f, ends_with f m (Return (v f))) -> returns m.
Proof. intros H w. exists (v (fs w)). now apply (H (fs w) w). Qed.

(** ** The file manager *)

Section FileManager.

Variable self : FileSystemManager.

Lemma validate_outcome f p :
  ends_with f (validate_source_file self p) (Return (accepts f p)).
Proof.
  unfold validate_source_file, accepts, is_hidden, is_icloud_placeholder,
    is_supported_file.
  destruct (str_startswith (path_name p) (lit ".")); cbn [negb andb].
  { outcome_step. apply ends_with_ret. }
  destruct (str_endswith (path_name p) (lit ".icloud")); cbn [negb andb].
  { outcome_step. apply ends_with_ret. }
  destruct (str_in (str_lower (path_suffix p)) SUPPORTED_EXTENSIONS);
    cbn [negb andb].
  2: { outcome_step. apply ends_with_ret. }
  do 2 outcome_step.
  destruct (fs_exists f p); cbn [negb andb orb];
    [|outcome_step; apply ends_with_ret].
  destruct (fs_is_file f p); cbn [negb andb orb]; [|outcome_step];
    apply ends_with_ret.
Qed.

Lemma validate_adds p :
  adds file_manager_log (validate_source_file self p).
Proof. unfold validate_source_file, path_exists, path_is_file. run. Qed.

(** [validate_source_file] only looks and logs. *)
Lemma validate_run p w :
  exists tr,
    validate_source_file self p w
    = (Return (accepts (fs w) p), mkWorld (fs w) (tr ++ trace w))
    /\ Forall (fun e => file_manager_log e = true) tr.
Proof.
  apply (run_shape (fs w) file_manager_log);
    [apply validate_outcome | apply validate_adds | reflexivity].
Qed.

Lemma resolve_target_path_shape target_dir filename extension w :
  exists t tr,
    _resolve_target_path self target_dir filename extension w
    = (Return t, mkWorld (fs w) (tr ++ trace w))
    /\ Forall (fun e => is_log e = true) tr
    /\ (t = base_path target_dir (_sanitize_path_component filename) extension
        \/ exists k,
             t = candidate target_dir (_sanitize_path_component filename)
                           extension k).
Proof.
  set (safe := _sanitize_path_component filename).
  unfold _resolve_target_path. fold safe.
  destruct (resolve_loop_spec target_dir safe extension 1000 1
              (joinpath target_dir (safe ++ extension)) w)
    as [t [c' [tr [E H]]]]; try lia.
  fold (base_path target_dir safe extension) in *.
  rewrite (bind_run _ _ _ _ _ E). cbn [fst snd].
  assert (Htr : Forall (fun e => is_log e = true) tr).
  { destruct H as [[_ [_ [_ ->]]] | [_ [k [_ [_ [_ [_ Hend]]]]]]];
      [constructor|].
    destruct Hend as [[_ [_ ->]] | [_ ->]]; repeat constructor. }
  assert (Ht : t = base_path target_dir safe extension
               \/ exists k, t = candidate target_dir safe extension k).
  { destruct H as [[_ [-> _]] | [_ [k [_ [-> _]]]]]; eauto. }
  destruct (1 <? c'); bind_step.
  - eexists t, (_ :: tr). split; [reflexivity|].
    split; [constructor; [reflexivity|exact Htr] | exact Ht].
  - exists t, tr. auto.
Qed.

End FileManager.

Section MoveFile.

Variable self : FileSystemManager.

Lemma resolve_loop_adds target_dir safe extension : forall fuel target c,
  adds file_manager_event
       (resolve_loop fuel target_dir safe extension target c).
Proof.
  induction fuel as [|fuel IH]; intros target c; cbn [resolve_loop];
    unfold path_exists; run.
Qed.

Lemma resolve_loop_keeps_fs target_dir safe extension : forall fuel target c,
  keeps_fs (resolve_loop fuel target_dir safe extension target c).
Proof.
  induction fuel as [|fuel IH]; intros target c; cbn [resolve_loop];
    unfold path_exists; run.
Qed.

Lemma resolve_target_path_adds target_dir filename extension :
  adds file_manager_event
       (_resolve_target_path self target_dir filename extension).
Proof.
  unfold _resolve_target_path. pose proof resolve_loop_adds. run.
Qed.

Lemma resolve_target_path_keeps_fs target_dir filename extension :
  keeps_fs (_resolve_target_path self target_dir filename extension).
Proof.
  unfold _resolve_target_path. pose proof resolve_loop_keeps_fs. run.
Qed.

Lemma resolve_target_path_returns target_dir filename extension :
  returns (_resolve_target_path self target_dir filename extension).
Proof.
  intros w.
  destruct (resolve_target_path_shape self target_dir filename extension w)
    as [t [tr [E _]]].
  exists t. now rewrite E.
Qed.

Lemma path_mkdir_adds p : adds file_manager_event (path_mkdir p).
Proof. unfold path_mkdir. run. Qed.

Lemma path_mkdir_terminates p : terminates (path_mkdir p).
Proof. unfold path_mkdir. run. Qed.

Lemma shutil_move_adds src dst : adds file_manager_event (shutil_move src dst).
Proof. unfold shutil_move. run. Qed.

Lemma shutil_move_terminates src dst : terminates (shutil_move src dst).
Proof. unfold shutil_move. run. Qed.

Lemma prepare_target_directory_adds category_ :
  adds file_manager_event (_prepare_target_directory self category_).
Proof. unfold _prepare_target_directory. pose proof path_mkdir_adds. run. Qed.

Lemma prepare_target_directory_terminates category_ :
  terminates (_prepare_target_directory self category_).
Proof.
  unfold _prepare_target_directory. pose proof path_mkdir_terminates. run.
Qed.

Lemma prepare_target_directory_preserves src category_ :
  preserves src (_prepare_target_directory self category_).
Proof.
  unfold _prepare_target_directory. apply preserves_bind.
  - apply preserves_path_mkdir.
  - intros _. apply keeps_fs_preserves. run.
Qed.

Lemma move_file_adds src md : adds file_manager_event (move_file self src md).
Proof.
  unfold move_file, path_exists.
  pose proof prepare_target_directory_adds.
  pose proof resolve_target_path_adds.
  pose proof shutil_move_adds. run.
Qed.

Lemma move_file_returns src md : returns (move_file self src md).
Proof.
  unfold move_file, path_exists.
  pose proof prepare_target_directory_terminates.
  pose proof (fun d f e => returns_terminates _
                (resolve_target_path_returns d f e)).
  pose proof shutil_move_terminates. run.
Qed.

(** A move removes nothing but the source. *)
Lemma move_file_preserves src md : preserves src (move_file self src md).
Proof.
  unfold move_file. apply preserves_bind.
  { apply keeps_fs_preserves. unfold path_exists. run. }
  intros ex. destruct (negb ex).
  { apply keeps_fs_preserves. run. }
  apply preserves_try_except.
  - apply preserves_bind; [apply prepare_target_directory_preserves|].
    intros target_dir. apply preserves_bind.
    { apply keeps_fs_preserves, resolve_target_path_keeps_fs. }
    intros target_path. apply preserves_bind.
    { apply preserves_shutil_move. }
    intros _. apply keeps_fs_preserves. run.
  - intros e. apply keeps_fs_preserves. run.
Qed.

End MoveFile.

(** ** The pipeline *)

(** Decides an inclusion between two classes of events. *)
Ltac event_cases e :=
  destruct e;
  try match goal with l : Logger |- _ => destruct l end;
  simpl in *; try reflexivity; try discriminate; try assumption.

Lemma file_manager_log_event e :
  file_manager_log e = true -> file_manager_event e = true.
Proof. intros H. event_cases e. Qed.

Lemma file_manager_event_pipeline e :
  file_manager_event e = true -> pipeline_event e = true.
Proof. intros H. event_cases e. Qed.

Lemma extractor_event_pipeline e :
  extractor_event e = true -> pipeline_event e = true.
Proof. intros H. event_cases e. Qed.

Lemma file_manager_log_not_move e :
  file_manager_log e = true -> is_move_event e = false.
Proof. intros H. event_cases e. Qed.

Lemma extractor_event_not_move e :
  extractor_event e = true -> is_move_event e = false.
Proof. intros H. event_cases e. Qed.

Section Pipeline.

Variable ext : Externals.
Variable self : DocumentProcessor.

Lemma extract_content_adds p :
  adds extractor_event (extract_content ext (extractor self) p).
Proof.
  unfold extract_content, path_exists.
  pose proof (fun p => adds_mono _ _ _ native_event_extractor
                         (extract_pdf_text_adds ext (extractor self) p)).
  pose proof (fun p => adds_mono _ _ _ ocr_event_extractor
                         (extract_via_ocr_adds ext (extractor self) p)).
  run.
Qed.

Lemma extract_content_keeps_fs p :
  keeps_fs (extract_content ext (extractor self) p).
Proof.
  unfold extract_content, path_exists.
  pose proof (fun p => ends_with_keeps_fs _ _
                (fun f => extract_pdf_text_outcome ext (extractor self) f p)).
  pose proof (fun p => ends_with_keeps_fs _ _
                (fun f => extract_via_ocr_outcome ext (extractor self) f p)).
  run.
Qed.

Lemma extract_content_terminates p :
  terminates (extract_content ext (extractor self) p).
Proof.
  unfold extract_content, path_exists.
  pose proof (fun p => returns_terminates _ (ends_with_returns _ _
                (fun f => extract_pdf_text_outcome ext (extractor self) f p))).
  pose proof (fun p => returns_terminates _ (ends_with_returns _ _
                (fun f => extract_via_ocr_outcome ext (extractor self) f p))).
  run.
Qed.

Lemma validate_keeps_fs p :
  keeps_fs (validate_source_file (file_manager self) p).
Proof.
  apply (ends_with_keeps_fs _ (fun f => Return (accepts f p))).
  intros f. apply validate_outcome.
Qed.

Lemma validate_returns p :
  returns (validate_source_file (file_manager self) p).
Proof.
  apply (ends_with_returns _ (fun f => accepts f p)).
  intros f. apply validate_outcome.
Qed.

(** One file adds only events of the pipeline: in particular it neither
    probes the classifier nor touches the monitor. *)
Lemma process_file_adds p : adds pipeline_event (process_file ext self p).
Proof.
  unfold process_file, call_analyze_document.
  pose proof (fun p => adds_mono _ pipeline_event _
                (fun e H => file_manager_event_pipeline e
                              (file_manager_log_event e H))
                (validate_adds (file_manager self) p)).
  pose proof (fun p => adds_mono _ _ _ extractor_event_pipeline
                         (extract_content_adds p)).
  pose proof (fun p md => adds_mono _ _ _ file_manager_event_pipeline
                            (move_file_adds (file_manager self) p md)).
  run.
Qed.

(** One file always ends with a verdict: no exception escapes. *)
Lemma process_file_returns p : returns (process_file ext self p).
Proof.
  unfold process_file, call_analyze_document.
  pose proof validate_returns.
  pose proof extract_content_terminates.
  pose proof (fun p md => returns_terminates _
                (move_file_returns (file_manager self) p md)).
  pose proof (fun p => returns_terminates _ (validate_returns p)).
  run.
Qed.

(** One file removes nothing but, at most, itself. *)
Lemma process_file_preserves p : preserves p (process_file ext self p).
Proof.
  unfold process_file, call_analyze_document.
  apply preserves_bind; [apply keeps_fs_preserves; run|]. intros _.
  apply preserves_bind; [apply keeps_fs_preserves, validate_keeps_fs|].
  intros valid. destruct (negb valid); [apply keeps_fs_preserves; run|].
  apply preserves_try_except; [|intros e; apply keeps_fs_preserves; run].
  apply preserves_bind; [apply keeps_fs_preserves; run|]. intros _.
  apply preserves_bind.
  { apply keeps_fs_preserves, keeps_fs_call, extract_content_keeps_fs. }
  intros content.
  apply preserves_bind; [apply keeps_fs_preserves; run|]. intros _.
  apply preserves_bind; [apply keeps_fs_preserves; run|]. intros _.
  apply preserves_bind; [apply keeps_fs_preserves; run|]. intros metadata.
  apply preserves_bind; [apply keeps_fs_preserves; run|]. intros _.
  apply preserves_bind.
  { apply preserves_call, move_file_preserves. }
  intros target. apply keeps_fs_preserves. run.
Qed.

End Pipeline.

Lemma try_run_return {A} (m : M A) (h : Exception -> M A) w a w1 :
  m w = (Return a, w1) -> try_except m h w = (Return a, w1).
Proof. intros H. unfold try_except. now rewrite H. Qed.

Lemma try_run_raise {A} (m : M A) (h : Exception -> M A) w e w1 :
  m w = (Raise e, w1) -> try_except m h w = h e w1.
Proof. intros H. unfold try_except. now rewrite H. Qed.

Lemma is_log_not_move e : is_log e = true -> is_move_event e = false.
Proof. intros H. event_cases e. Qed.

Lemma is_log_not_extraction e :
  is_log e = true -> is_extraction_call e = false.
Proof. intros H. event_cases e. Qed.

Lemma file_manager_log_is_log e :
  file_manager_log e = true -> is_log e = true.
Proof. intros H. event_cases e. Qed.

Lemma accepts_true f p :
  accepts f p = true ->
  is_hidden p = false /\ is_icloud_placeholder p = false
  /\ is_supported_file p = true /\ fs_exists f p = true
  /\ fs_is_file f p = true.
Proof.
  unfold accepts. intros H.
  repeat (apply andb_prop in H; destruct H as [H ?]).
  repeat split; try assumption; now apply negb_true_iff.
Qed.

Lemma accepts_false f p :
  accepts f p = false <->
  is_hidden p = true \/ is_icloud_placeholder p = true
  \/ is_supported_file p = false \/ fs_exists f p = false
  \/ fs_is_file f p = false.
Proof.
  unfold accepts.
  destruct (is_hidden p), (is_icloud_placeholder p), (is_supported_file p),
    (fs_exists f p), (fs_is_file f p); simpl; intuition congruence.
Qed.

(** Stepping through the body of a [try] block. *)
Lemma try_bind_run {A B} (m : M A) (k : A -> M B) h w a w1 :
  m w = (Return a, w1) -> try_except (bind m k) h w = try_except (k a) h w1.
Proof. intros H. unfold try_except, bind. now rewrite H. Qed.

Lemma try_bind_raise {A B} (m : M A) (k : A -> M B) h w e w1 :
  m w = (Raise e, w1) -> try_except (bind m k) h w = h e w1.
Proof. intros H. unfold try_except, bind. now rewrite H. Qed.

Lemma try_bind_assoc {A B C} (m : M A) (k1 : A -> M B) (k2 : B -> M C) h w :
  try_except (bind (bind m k1) k2) h w
  = try_except (bind m (fun x => bind (k1 x) k2)) h w.
Proof.
  unfold try_except. now rewrite bind_assoc_run.
Qed.

Ltac try_step :=
  repeat match goal with
         | |- context [try_except (bind (bind ?m ?k1) ?k2) ?h ?w] =>
             rewrite (try_bind_assoc m k1 k2 h w)
         end;
  erewrite try_bind_run by reflexivity; cbv beta; cbn [fs trace].

(** Two traces agree up to the grouping of their parts. *)
Ltac trace_eq :=
  cbn [trace app]; repeat (rewrite <- !app_assoc; cbn [app]); reflexivity.

Section ProcessFile.

Variable ext : Externals.
Variable self : DocumentProcessor.

(** A rejected candidate: two records around those of the validation,
    nothing else. *)
Lemma process_file_rejected p w :
  accepts (fs w) p = false ->
  exists tr,
    process_file ext self p w = (Return false, mkWorld (fs w) (tr ++ trace w))
    /\ Forall (fun e => is_log e = true) tr.
Proof.
  intros Hacc. unfold process_file. bind_step.
  match goal with
  | |- context [bind (validate_source_file ?fm p) _ ?W] =>
      destruct (validate_run fm p W) as [tr [E F]]
  end.
  rewrite (bind_run _ _ _ _ _ E). cbn [fs]. rewrite Hacc. cbn [negb].
  bind_step. eexists (_ :: tr ++ [_]). split.
  - trace_eq.
  - constructor; [reflexivity|]. apply Forall_app. split.
    + revert F. apply Forall_mono_bool, file_manager_log_is_log.
    + repeat constructor.
Qed.

(** An accepted candidate: the file is read, then the classifier is
    asked; when it fails nothing more happens, and only when it answers
    is the move entered. *)
Lemma process_file_accepted p w :
  accepts (fs w) p = true ->
  exists tr_pre b f' tr_post,
    process_file ext self p w
    = (Return b,
       mkWorld f'
         (tr_post
          ++ Call_analyze_document
               (extracted_text ext (extractor self) (fs w) p)
          :: tr_pre ++ trace w))
    /\ Forall (fun e => is_move_event e = false) tr_pre
    /\ In (Call_extract_content p) tr_pre
    /\ (forall e,
          analyze_document ext (extracted_text ext (extractor self) (fs w) p)
          = inl e ->
          b = false /\ f' = fs w
          /\ Forall (fun e => is_log e = true) tr_post).
Proof.
  intros Hacc. destruct (accepts_true _ _ Hacc) as [_ [_ [_ [Hex _]]]].
  set (content := extracted_text ext (extractor self) (fs w) p).
  unfold process_file. bind_step.
  match goal with
  | |- context [bind (validate_source_file ?fm p) _ ?W] =>
      destruct (validate_run fm p W) as [tr0 [E0 F0]]
  end.
  cbn [fs trace] in E0.
  rewrite (bind_run _ _ _ _ _ E0). rewrite Hacc. cbn [negb].
  try_step.
  (* extraction *)
  match goal with
  | |- context [try_except (bind (call ?e ?c) _) _ ?W] =>
      destruct (extract_content_run ext (extractor self) p
                  (mkWorld (fs W) (e :: trace W)) Hex) as [tr1 [E1 [F1 _]]];
      change (c (mkWorld (fs W) (e :: trace W))) with (call e c W) in E1
  end.
  cbn [fs trace] in E1. fold content in E1.
  rewrite (try_bind_run _ _ _ _ _ _ E1).
  (* the warning for an empty content *)
  match goal with
  | |- context [try_except (bind ?c _) _ ?W] =>
      assert (Hw : exists trw,
                c W = (Return tt, mkWorld (fs w) (trw ++ trace W))
                /\ Forall (fun e => is_log e = true) trw)
  end.
  { destruct (str_strip_ws content).
    - eexists [_]. split; [reflexivity | repeat constructor].
    - exists []. split; [reflexivity | constructor]. }
  destruct Hw as [trw [Ew Fw]]. cbn [fs trace] in Ew.
  rewrite (try_bind_run _ _ _ _ _ _ Ew).
  try_step. unfold call_analyze_document. try_step.
  (* everything so far *)
  match goal with
  | |- context [mkWorld (fs w) (Call_analyze_document content :: ?t)] =>
      assert (Hpre : exists tr_pre,
                t = tr_pre ++ trace w
                /\ Forall (fun e => is_move_event e = false) tr_pre
                /\ In (Call_extract_content p) tr_pre)
  end.
  { eexists (_ :: trw ++ tr1 ++ _ :: _ :: tr0 ++ [_]). split; [|split].
    - trace_eq.
    - constructor; [reflexivity|]. apply Forall_app. split.
      { revert Fw. apply Forall_impl, is_log_not_move. }
      apply Forall_app. split.
      { revert F1. apply Forall_impl, extractor_event_not_move. }
      do 2 (constructor; [reflexivity|]). apply Forall_app. split.
      { revert F0. apply Forall_impl, file_manager_log_not_move. }
      repeat constructor.
    - right. apply in_or_app. right. apply in_or_app. right. now left. }
  destruct Hpre as [tr_pre [-> [Fpre Hin]]].
  exists tr_pre.
  destruct (analyze_document ext content) as [e|metadata].
  - (* the classifier fails *)
    erewrite try_bind_raise by reflexivity. bind_step.
    eexists false, (fs w), [_]. split; [reflexivity|].
    split; [exact Fpre|]. split; [exact Hin|].
    intros _ _. repeat split. repeat constructor.
  - (* the classifier answers *)
    do 2 try_step.
    match goal with
    | |- context [try_except (bind (call ?e ?c) _) _ ?W] =>
        destruct (returning_shape file_manager_event p c
                    (mkWorld (fs W) (e :: trace W))
                    (move_file_returns _ _ _) (move_file_adds _ _ _)
                    (move_file_preserves _ _ _))
          as [target [f' [tr2 [E2 _]]]];
        change (c (mkWorld (fs W) (e :: trace W))) with (call e c W) in E2
    end.
    cbn [fs trace] in E2.
    rewrite (try_bind_run _ _ _ _ _ _ E2).
    destruct target as [target|]; try_step; cbn [try_except ret].
    + eexists true, f', (_ :: tr2 ++ [_; _]).
      split; [|split; [exact Fpre | split; [exact Hin | discriminate]]].
      trace_eq.
    + eexists false, f', (_ :: tr2 ++ [_; _]).
      split; [|split; [exact Fpre | split; [exact Hin | discriminate]]].
      trace_eq.
Qed.

End ProcessFile.


Lemma str_in_In (x : str) (xs : list str) : str_in x xs = true <-> In x xs.
Proof.
  unfold str_in. rewrite existsb_exists. split.
  - intros [y [Hy E]]. apply str_eqb_eq in E. now subst.
  - intros H. exists x. split; [exact H | now apply str_eqb_eq].
Qed.

(** C7: a candidate that is hidden, an iCloud placeholder, of an
    unsupported extension, missing or not a regular file makes
    [process_file] return [False] with no extraction attempted and the
    file system untouched; whenever an extraction is attempted, the
    candidate has passed all these checks.  The supported extensions are
    .pdf, .jpg, .jpeg and .png. *)
Theorem C7_validation_precedes_extraction ext self p w :
  ((is_hidden p = true \/ is_icloud_placeholder p = true
    \/ is_supported_file p = false \/ fs_exists (fs w) p = false
    \/ fs_is_file (fs w) p = false) ->
   exists tr,
     process_file ext self p w = (Return false, mkWorld (fs w) (tr ++ trace w))
     /\ existsb is_extraction_call tr = false)
  /\ (forall tr,
        trace (snd (process_file ext self p w)) = tr ++ trace w ->
        existsb is_extraction_call tr = true ->
        is_hidden p = false /\ is_icloud_placeholder p = false
        /\ is_supported_file p = true /\ fs_exists (fs w) p = true
        /\ fs_is_file (fs w) p = true)
  /\ (is_supported_file p = true <->
      In (str_lower (path_suffix p))
         [lit ".pdf"; lit ".jpg"; lit ".jpeg"; lit ".png"]).
Proof.
  assert (Hrej : accepts (fs w) p = false ->
    exists tr,
      process_file ext self p w
      = (Return false, mkWorld (fs w) (tr ++ trace w))
      /\ existsb is_extraction_call tr = false).
  { intros Hacc.
    destruct (process_file_rejected ext self p w Hacc) as [tr [E F]].
    exists tr. split; [exact E|].
    apply (existsb_false_Forall is_log); [|exact F].
    apply is_log_not_extraction. }
  split; [|split].
  - intros H. apply Hrej. now apply accepts_false.
  - intros tr Htr Hcall. apply accepts_true.
    destruct (Bool.bool_dec (accepts (fs w) p) true) as [Hacc|Hacc];
      [exact Hacc|].
    apply not_true_is_false in Hacc.
    destruct (Hrej Hacc) as [tr' [E F]].
    rewrite E in Htr. cbn [snd trace] in Htr.
    apply app_inv_tail in Htr. subst tr'. congruence.
  - unfold is_supported_file. rewrite str_in_In.
    unfold SUPPORTED_EXTENSIONS. simpl. tauto.
Qed.

(** ** Extensions and their case *)

Lemma try_bind_diverge {A B} (m : M A) (k : A -> M B) h w w1 :
  m w = (Diverge, w1) -> try_except (bind m k) h w = (Diverge, w1).
Proof. intros H. unfold try_except, bind. now rewrite H. Qed.

Lemma path_suffix_in_name (c : ascii) (p : Path) :
  In c (path_suffix p) -> In c (path_name p).
Proof.
  unfold path_suffix. destruct (str_rfind "." (path_name p)) as [i|];
    [|contradiction].
  destruct ((0 <? i) && (i + 1 <? length (path_name p))); [|contradiction].
  intros H. rewrite <- (firstn_skipn i (path_name p)).
  apply in_or_app. now right.
Qed.

Lemma path_name_last (dir : Path) (x : str) : path_name (dir ++ [x]) = x.
Proof. unfold path_name. apply last_last. Qed.

(** The path a successful move reports ends with the extension of the
    source, as the source spells it. *)
Lemma move_file_keeps_extension self p metadata w t :
  ~ In "/"%char (path_name p) ->
  fst (move_file self p metadata w) = Return (Some t) ->
  exists stem, path_name t = stem ++ path_suffix p.
Proof.
  intros Hsep H.
  assert (Hext : ~ In "/"%char (path_suffix p)).
  { intros Hin. apply Hsep. now apply path_suffix_in_name. }
  unfold move_file in H. rewrite bind_run with (a := fs_exists (fs w) p)
    (w1 := w) in H by reflexivity.
  destruct (fs_exists (fs w) p); cbn [negb] in H.
  { destruct (_prepare_target_directory self (category metadata) w)
      as [[dir|e|] w1] eqn:E1.
    - rewrite (try_bind_run _ _ _ _ _ _ E1) in H.
      destruct (resolve_target_path_shape self dir (filename metadata)
                  (path_suffix p) w1) as [t' [tr [E2 [_ Ht']]]].
      rewrite (try_bind_run _ _ _ _ _ _ E2) in H.
      match type of H with
      | context [try_except (bind (shutil_move ?s ?d) _) _ ?W] =>
          destruct (shutil_move s d W) as [[r|e|] w3] eqn:E3
      end.
      + rewrite (try_bind_run _ _ _ _ _ _ E3) in H.
        erewrite try_bind_run in H by reflexivity.
        cbn in H. injection H as <-.
        destruct Ht' as [->|[k ->]].
        * rewrite (base_path_shape dir (filename metadata) _ Hext).
          rewrite path_name_last. eauto.
        * rewrite (candidate_shape dir (filename metadata) _ Hext).
          rewrite path_name_last.
          exists (_sanitize_path_component (filename metadata) ++ lit "_"
                  ++ str_of_nat k).
          now rewrite <- !app_assoc.
      + rewrite (try_bind_raise _ _ _ _ _ _ E3) in H.
        erewrite bind_run in H by reflexivity. discriminate H.
      + rewrite (try_bind_diverge _ _ _ _ _ E3) in H. discriminate H.
    - rewrite (try_bind_raise _ _ _ _ _ _ E1) in H.
      erewrite bind_run in H by reflexivity. discriminate H.
    - rewrite (try_bind_diverge _ _ _ _ _ E1) in H. discriminate H. }
  erewrite bind_run in H by reflexivity. discriminate H.
Qed.

(** C10: the extension is lowered before it is looked up in the supported
    set, by [validate_source_file] and by [is_supported_file] alike, so a
    file whose extension is a supported one in upper or mixed case, such
    as .PDF or .Jpg, is accepted when it passes the other checks; the
    path a successful move reports ends with the extension exactly as the
    source spells it. *)
Theorem C10_extension_case self p metadata w :
  ~ In "/"%char (path_name p) ->
  (is_supported_file p = true <->
   In (str_lower (path_suffix p)) SUPPORTED_EXTENSIONS)
  /\ (path_suffix p = lit ".PDF" \/ path_suffix p = lit ".Jpg" ->
      is_supported_file p = true)
  /\ fst (validate_source_file self p w)
     = Return (negb (is_hidden p) && negb (is_icloud_placeholder p)
               && str_in (str_lower (path_suffix p)) SUPPORTED_EXTENSIONS
               && fs_exists (fs w) p && fs_is_file (fs w) p)
  /\ (forall t,
        fst (move_file self p metadata w) = Return (Some t) ->
        exists stem, path_name t = stem ++ path_suffix p).
Proof.
  intros Hsep. split; [|split; [|split]].
  - unfold is_supported_file. apply str_in_In.
  - unfold is_supported_file. intros [->| ->]; reflexivity.
  - destruct (validate_run self p w) as [tr [E _]]. rewrite E. reflexivity.
  - intros t. now apply move_file_keeps_extension.
Qed.

(** C2: the sanitizer strips dots and spaces only.  A name that starts
    with a tab and ends with a line feed comes back unchanged, so the
    result starts and ends with white space. *)
Theorem C2_sanitize_keeps_tab_and_line_feed :
  _sanitize_path_component (ascii_of_nat 9 :: lit "Report" ++ [newline])
  = ascii_of_nat 9 :: lit "Report" ++ [newline]
  /\ is_whitespace
       (hd " "%char
           (_sanitize_path_component
              (ascii_of_nat 9 :: lit "Report" ++ [newline]))) = true
  /\ is_whitespace
       (last (_sanitize_path_component
                (ascii_of_nat 9 :: lit "Report" ++ [newline])) " "%char)
     = true.
Proof. repeat split; vm_compute; reflexivity. Qed.


(** ** Start-up *)

Lemma startup_event_not_probe_or_probe e :
  startup_event e = true -> is_probe e = true \/ not_probe e = true.
Proof. destruct e; simpl; auto. Qed.

Lemma pipeline_event_not_probe e :
  pipeline_event e = true -> not_probe e = true.
Proof. intros H. event_cases e. Qed.

Lemma pipeline_event_monitor e :
  pipeline_event e = true -> monitor_event e = true.
Proof. intros H. event_cases e. Qed.

Lemma monitor_event_not_probe e :
  monitor_event e = true -> not_probe e = true.
Proof. intros H. event_cases e. Qed.

Lemma filter_probe_quiet (tr : list Event) :
  Forall (fun e => not_probe e = true) tr -> filter is_probe tr = [].
Proof.
  induction 1 as [|e tr He _ IH]; simpl; [reflexivity|].
  unfold not_probe in He. apply negb_true_iff in He. now rewrite He.
Qed.

Lemma probes_quiet n {A} (m : M A) : adds not_probe m -> probes_at_most n m.
Proof.
  intros H w. destruct (H w) as [tr [E F]]. exists tr. split; [exact E|].
  rewrite (filter_probe_quiet tr F). simpl. lia.
Qed.

Lemma probes_bind n1 n2 {A B} (m : M A) (k : A -> M B) :
  probes_at_most n1 m -> (forall a, probes_at_most n2 (k a)) ->
  probes_at_most (n1 + n2) (bind m k).
Proof.
  intros Hm Hk w. unfold bind. destruct (Hm w) as [tr1 [E1 L1]].
  destruct (m w) as [[a|e|] w1]; cbn [snd] in *.
  - destruct (Hk a w1) as [tr2 [E2 L2]]. exists (tr2 ++ tr1). split.
    + rewrite E2, E1. apply app_assoc.
    + rewrite filter_app, length_app. lia.
  - exists tr1. split; [exact E1 | lia].
  - exists tr1. split; [exact E1 | lia].
Qed.

Lemma probes_call_check_connection ext :
  probes_at_most 1 (call_check_connection ext).
Proof.
  intros w. exists [Call_check_connection]. split; [reflexivity|].
  simpl. lia.
Qed.

Section Startup.

Variable cfg : Config.
Variable ext : Externals.

Lemma setup_logging_adds : adds startup_event (setup_logging cfg ext).
Proof. unfold setup_logging. run. Qed.

Lemma setup_logging_keeps_fs : keeps_fs (setup_logging cfg ext).
Proof. unfold setup_logging. run. Qed.

Lemma setup_logging_returns : returns (setup_logging cfg ext).
Proof. unfold setup_logging. run. Qed.

Lemma Config_validate_outcome f :
  ends_with f (Config_validate cfg) (Return (config_valid cfg f)).
Proof.
  unfold Config_validate, config_valid.
  outcome_step.
  destruct (fs_exists f (path_parent (Path_of_str (INBOX_PATH cfg))));
    cbn [negb andb]; [|apply ends_with_ret].
  outcome_step.
  destruct (fs_exists f (path_parent (Path_of_str (TARGET_ROOT cfg))));
    cbn [negb]; apply ends_with_ret.
Qed.

Lemma Config_validate_adds P : adds P (Config_validate cfg).
Proof. unfold Config_validate, path_exists. run. Qed.

Lemma path_mkdir_run p w :
  path_mkdir p w
  = (match fs_makedirs (fs w) p with
     | inl e => Raise e
     | inr _ => Return tt
     end,
     mkWorld (match fs_makedirs (fs w) p with
              | inl _ => fs w
              | inr f' => f'
              end) (Call_mkdir p :: trace w)).
Proof.
  unfold path_mkdir. do 2 bind_step.
  destruct (fs_makedirs (fs w) p) as [e|f'].
  - reflexivity.
  - bind_step. reflexivity.
Qed.

Lemma ensure_directories_run w :
  exists f' tr,
    Config_ensure_directories cfg w
    = (match directories_ready cfg (fs w) with
       | inl e => Raise e
       | inr _ => Return tt
       end, mkWorld f' (tr ++ trace w))
    /\ Forall (fun e => startup_event e = true) tr
    /\ Forall (fun e => not_probe e = true) tr.
Proof.
  unfold Config_ensure_directories, directories_ready, bind.
  rewrite path_mkdir_run.
  destruct (fs_makedirs (fs w) (Path_of_str (INBOX_PATH cfg))) as [e|f1].
  - eexists _, [_]. split; [reflexivity|]. split; repeat constructor.
  - rewrite path_mkdir_run. cbn [fs trace].
    eexists _, [_; _]. split; [reflexivity|]. split; repeat constructor.
Qed.

(** The prerequisite check returns [prerequisites_met], with events of
    the start-up only and one probe at most. *)
Lemma verify_prerequisites_run w :
  exists f' tr,
    verify_prerequisites cfg ext w
    = (Return (prerequisites_met cfg ext (fs w)),
       mkWorld f' (tr ++ trace w))
    /\ Forall (fun e => startup_event e = true) tr
    /\ length (filter is_probe tr) <= 1.
Proof.
  unfold verify_prerequisites, prerequisites_met. bind_step.
  match goal with
  | |- context [bind (Config_validate cfg) _ ?W] =>
      destruct (run_shape (fs w) startup_event (Config_validate cfg) _ W
                  (Config_validate_outcome (fs w))
                  (Config_validate_adds startup_event) eq_refl)
        as [tr0 [E0 F0]];
      pose proof (Config_validate_adds not_probe W) as [tr0' [E0' F0']]
  end.
  rewrite E0 in E0'. cbn [snd trace] in E0'. apply app_inv_tail in E0'.
  subst tr0'.
  rewrite (bind_run _ _ _ _ _ E0).
  destruct (config_valid cfg (fs w)); cbn [negb andb].
  2: { bind_step. eexists _, (_ :: tr0 ++ [_]).
       split; [f_equal; f_equal; symmetry; trace_eq|]. split.
       - constructor; [reflexivity|]. apply Forall_app. split; [exact F0|].
         repeat constructor.
       - cbn [filter is_probe]. rewrite filter_app.
         rewrite (filter_probe_quiet tr0 F0'). simpl. lia. }
  match goal with
  | |- context [bind (try_except (bind (Config_ensure_directories cfg) _) _)
                     _ ?W] =>
      destruct (ensure_directories_run W) as [f1 [tr1 [E1 [F1 F1']]]]
  end.
  cbn [fs trace] in E1.
  destruct (directories_ready cfg (fs w)) as [e|f2].
  - rewrite bind_run with (a := false)
      (w1 := mkWorld f1
               (Log L_main ERROR
                    (lit "Failed to create directories: " ++ exc_str e)
                :: tr1 ++ tr0
                   ++ Log L_main INFO (lit "Verifying prerequisites")
                   :: trace w)).
    2: { rewrite (try_bind_raise _ _ _ _ _ _ E1). bind_step. reflexivity. }
    cbn [negb andb].
    eexists _, (_ :: tr1 ++ tr0 ++ [_]).
    split; [cbn [ret]; f_equal; f_equal; symmetry; trace_eq|]. split.
    + constructor; [reflexivity|]. apply Forall_app. split; [exact F1|].
      apply Forall_app. split; [exact F0 | repeat constructor].
    + cbn [filter is_probe]. rewrite !filter_app.
      rewrite (filter_probe_quiet tr1 F1'), (filter_probe_quiet tr0 F0').
      simpl. lia.
  - rewrite bind_run with (a := true)
      (w1 := mkWorld f1
               (Log L_main INFO (lit "Required directories verified")
                :: tr1 ++ tr0
                   ++ Log L_main INFO (lit "Verifying prerequisites")
                   :: trace w)).
    2: { rewrite (try_bind_run _ _ _ _ _ _ E1). try_step. reflexivity. }
    cbn [negb andb]. unfold call_check_connection.
    bind_step. bind_step.
    destruct (check_connection ext); cbn [negb]; bind_step.
    + eexists _, (_ :: _ :: _ :: tr1 ++ tr0 ++ [_]).
      split; [cbn [ret]; f_equal; f_equal; symmetry; trace_eq|]. split.
      * do 3 (constructor; [reflexivity|]). apply Forall_app.
        split; [exact F1|].
        apply Forall_app. split; [exact F0 | repeat constructor].
      * cbn [filter is_probe length]. rewrite !filter_app.
        rewrite (filter_probe_quiet tr1 F1'), (filter_probe_quiet tr0 F0').
        simpl. lia.
    + eexists _, (_ :: _ :: _ :: tr1 ++ tr0 ++ [_]).
      split; [cbn [ret]; f_equal; f_equal; symmetry; trace_eq|]. split.
      * do 3 (constructor; [reflexivity|]). apply Forall_app.
        split; [exact F1|].
        apply Forall_app. split; [exact F0 | repeat constructor].
      * cbn [filter is_probe length]. rewrite !filter_app.
        rewrite (filter_probe_quiet tr1 F1'), (filter_probe_quiet tr0 F0').
        simpl. lia.
Qed.

End Startup.

(** ** The monitor *)

Section Monitor.

Variable cfg : Config.
Variable ext : Externals.
Variable callback : Path -> M bool.
Hypothesis callback_adds : forall p, adds monitor_event (callback p).
Hypothesis callback_terminates : forall p, terminates (callback p).

Lemma on_created_adds delay event :
  adds monitor_event (on_created callback delay event).
Proof. unfold on_created. run. Qed.

Lemma on_created_terminates delay event :
  terminates (on_created callback delay event).
Proof. unfold on_created. run. Qed.

Lemma initial_scan_loop_adds files : forall n,
  adds monitor_event (initial_scan_loop (Some callback) files n).
Proof. induction files as [|f files IH]; intros n; simpl; run. Qed.

Lemma initial_scan_loop_terminates files : forall n,
  terminates (initial_scan_loop (Some callback) files n).
Proof. induction files as [|f files IH]; intros n; simpl; run. Qed.

Lemma deliver_adds events : adds monitor_event (deliver cfg callback events).
Proof.
  induction events as [|event events IH]; simpl;
    pose proof on_created_adds; run.
Qed.

Lemma deliver_terminates events : terminates (deliver cfg callback events).
Proof.
  induction events as [|event events IH]; simpl;
    pose proof on_created_terminates; run.
Qed.

Lemma monitor_run_adds inbox :
  adds monitor_event
       (DirectoryMonitor_run cfg ext
          (mkDirectoryMonitor inbox (Some callback))).
Proof.
  unfold DirectoryMonitor_run, run_initial_scan, start_monitoring,
    stop_monitoring, path_exists, path_is_dir.
  cbn [process_callback inbox_path].
  pose proof initial_scan_loop_adds. pose proof deliver_adds. run.
Qed.

Lemma monitor_run_terminates inbox :
  terminates
    (DirectoryMonitor_run cfg ext (mkDirectoryMonitor inbox (Some callback))).
Proof.
  unfold DirectoryMonitor_run, run_initial_scan, start_monitoring,
    stop_monitoring, path_exists, path_is_dir.
  cbn [process_callback inbox_path].
  pose proof initial_scan_loop_terminates. pose proof deliver_terminates.
  run.
Qed.

End Monitor.

(** ** The entry point *)

Lemma quiet_shape P {A} (m : M A) w :
  returns m -> adds P m -> keeps_fs m ->
  exists a tr,
    m w = (Return a, mkWorld (fs w) (tr ++ trace w))
    /\ Forall (fun e => P e = true) tr.
Proof.
  intros Hr Ha Hk. destruct (Hr w) as [a Ho].
  destruct (Ha w) as [tr [Ht Hf]]. specialize (Hk w).
  destruct (m w) as [o [f' t']]. simpl in *. subst.
  exists a, tr. auto.
Qed.

Lemma startup_log_only_not_probe e :
  is_log e = true -> not_probe e = true.
Proof. intros H. event_cases e. Qed.

Section Main.

Variable cfg : Config.
Variable ext : Externals.

Lemma DocumentProcessor_init_adds :
  adds pipeline_event (DocumentProcessor_init cfg).
Proof.
  unfold DocumentProcessor_init, ContentExtractor_init,
    FileSystemManager_init. run.
Qed.

Lemma DocumentProcessor_init_terminates :
  terminates (DocumentProcessor_init cfg).
Proof.
  unfold DocumentProcessor_init, ContentExtractor_init,
    FileSystemManager_init. run.
Qed.

(** What [main] does once the prerequisites are checked. *)
Lemma main_after_check_adds :
  adds monitor_event
    (log L_main INFO (lit "Inbox Path: " ++ INBOX_PATH cfg) ;;
     log L_main INFO (lit "Target Path: " ++ TARGET_ROOT cfg) ;;
     log L_main INFO (lit "Ollama Model: " ++ MODEL_NAME cfg) ;;
     log L_main INFO (lit "OCR Languages: " ++ OCR_LANGUAGES cfg) ;;
     processor <- DocumentProcessor_init cfg ;;
     let monitor :=
       mkDirectoryMonitor
         (Path_of_str (INBOX_PATH cfg))
         (Some (fun filepath =>
                  call (Call_process_file filepath)
                       (process_file ext processor filepath))) in
     log L_monitor INFO
         (lit "DirectoryMonitor initialized for: "
          ++ str_of_path (inbox_path monitor)) ;;
     r <- try_except
            (call Call_monitor_run (DirectoryMonitor_run cfg ext monitor) ;;
             ret None)
            (fun e =>
               log L_main ERROR
                   (lit "Fatal error in main loop: " ++ exc_str e) ;;
               ret (Some 1%Z)) ;;
     match r with
     | Some code => ret code
     | None =>
         log L_main INFO (lit "Application shutdown complete") ;;
         ret 0%Z
     end).
Proof.
  pose proof (adds_mono _ _ _ pipeline_event_monitor
                DocumentProcessor_init_adds).
  assert (Hcb : forall processor p,
            adds monitor_event
                 (call (Call_process_file p)
                       (process_file ext processor p))).
  { intros processor p. apply adds_call; [reflexivity|].
    apply (adds_mono _ _ _ pipeline_event_monitor).
    apply process_file_adds. }
  assert (Hct : forall processor p,
            terminates (call (Call_process_file p)
                             (process_file ext processor p))).
  { intros processor p. apply terminates_call, returns_terminates.
    apply process_file_returns. }
  pose proof (fun processor inbox =>
                monitor_run_adds cfg ext _ (Hcb processor) inbox).
  cbv zeta. run.
Qed.

Lemma setup_logging_quiet : adds not_probe (setup_logging cfg ext).
Proof. unfold setup_logging. run. Qed.

(** [main] probes the classifier once at most: in the prerequisite
    check. *)
Lemma main_probes : probes_at_most 1 (main cfg ext).
Proof.
  unfold main.
  apply (probes_bind 0 1); [apply probes_quiet, setup_logging_quiet|].
  intros _.
  do 3 (apply (probes_bind 0 1); [apply probes_quiet; run | intros _]).
  apply (probes_bind 1 0).
  - intros w. destruct (verify_prerequisites_run cfg ext w)
      as [f' [tr [E [_ L]]]].
    exists tr. rewrite E. auto.
  - intros ok. apply probes_quiet. destruct (negb ok); [run|].
    apply (adds_mono _ _ _ monitor_event_not_probe).
    apply main_after_check_adds.
Qed.

(** When the prerequisite check fails, [main] ends with the exit code 1
    after events of the start-up only. *)
Lemma main_startup_failure w :
  prerequisites_met cfg ext (fs w) = false ->
  exists f' tr,
    main cfg ext w = (Return 1%Z, mkWorld f' (tr ++ trace w))
    /\ Forall (fun e => startup_event e = true) tr.
Proof.
  intros Hfail. unfold main.
  destruct (quiet_shape startup_event (setup_logging cfg ext) w
              (setup_logging_returns cfg ext) (setup_logging_adds cfg ext)
              (setup_logging_keeps_fs cfg ext)) as [[] [tr0 [E0 F0]]].
  rewrite (bind_run _ _ _ _ _ E0). do 3 bind_step.
  match goal with
  | |- context [bind (verify_prerequisites cfg ext) _ ?W] =>
      destruct (verify_prerequisites_run cfg ext W) as [f1 [tr1 [E1 [F1 _]]]]
  end.
  cbn [fs trace] in E1. rewrite Hfail in E1.
  rewrite (bind_run _ _ _ _ _ E1). cbn [negb]. bind_step.
  eexists f1, (_ :: tr1 ++ _ :: _ :: _ :: tr0).
  split; [cbn [ret]; f_equal; f_equal; symmetry; trace_eq|].
  constructor; [reflexivity|]. apply Forall_app. split; [exact F1|].
  do 3 (constructor; [reflexivity|]). exact F0.
Qed.

End Main.

(** C8: when the prerequisite check fails, because a configured path is
    unusable or because the connectivity probe answers false, [main]
    returns the exit code 1 and everything it did belongs to the start-up:
    the monitor is not run and no file is processed.  The probe is made
    once at most in a run of [main], in the prerequisite check, and never
    by [process_file]. *)
Theorem C8_startup_failure cfg ext w :
  (prerequisites_met cfg ext (fs w) = false ->
   exists f' tr,
     main cfg ext w = (Return 1%Z, mkWorld f' (tr ++ trace w))
     /\ Forall (fun e => startup_event e = true) tr
     /\ ~ In Call_monitor_run tr
     /\ (forall p, ~ In (Call_process_file p) tr))
  /\ (config_valid cfg (fs w) = false
      \/ (exists e, directories_ready cfg (fs w) = inl e)
      \/ check_connection ext = false ->
      prerequisites_met cfg ext (fs w) = false)
  /\ (exists tr,
        trace (snd (main cfg ext w)) = tr ++ trace w
        /\ length (filter is_probe tr) <= 1)
  /\ (forall self p w0,
        exists tr,
          trace (snd (process_file ext self p w0)) = tr ++ trace w0
          /\ ~ In Call_check_connection tr).
Proof.
  split; [|split; [|split]].
  - intros Hfail.
    destruct (main_startup_failure cfg ext w Hfail) as [f' [tr [E F]]].
    exists f', tr. split; [exact E|]. split; [exact F|].
    rewrite Forall_forall in F. split.
    + intros Hin. specialize (F _ Hin). discriminate F.
    + intros p Hin. specialize (F _ Hin). discriminate F.
  - unfold prerequisites_met. intros [H|[[e H]|H]]; rewrite H.
    + reflexivity.
    + now rewrite andb_false_r.
    + now rewrite andb_false_r.
  - apply main_probes.
  - intros self p w0.
    destruct (process_file_adds ext self p w0) as [tr [E F]].
    exists tr. split; [exact E|]. rewrite Forall_forall in F.
    intros Hin. specialize (F _ Hin). discriminate F.
Qed.

(** ** Documents under a move *)


















Section ProcessFileEffect.

Variable ext : Externals.
Variable self : DocumentProcessor.



End ProcessFileEffect.



(** ** The OCR stage *)




(** ** Where a move can lead *)





(** ** Directories that are made *)







(** ** The catch-up scan *)







(** ** The exit code *)

Section OutcomeRules.

Context {A B : Type}.








End OutcomeRules.


Section MonitorOutcome.

Variable cfg : Config.
Variable ext : Externals.
Variable callback : Path -> M bool.
Hypothesis callback_returns : forall p, returns (callback p).







End MonitorOutcome.



(** ** After the prerequisite check *)





(** ** Worked examples *)


(** C10 at a sample: scan.PDF is supported, and a move reports a path
    that ends in .PDF. *)
Lemma C10_witness :
  ~ In "/"%char (path_name [lit "in"; lit "scan.PDF"])
  /\ is_supported_file [lit "in"; lit "scan.PDF"] = true
  /\ (forall t,
        fst (move_file sample_file_manager [lit "in"; lit "scan.PDF"]
                       sample_metadata sample_world) = Return (Some t) ->
        exists stem, path_name t = stem ++ lit ".PDF").
Proof.
  assert (H : ~ In "/"%char (path_name [lit "in"; lit "scan.PDF"])).
  { cbv. intros H.
    repeat (destruct H as [H|H]; [discriminate H|]). exact H. }
  destruct (C10_extension_case sample_file_manager
              [lit "in"; lit "scan.PDF"] sample_metadata sample_world H)
    as [_ [Hsup [_ Hmove]]].
  split; [exact H|]. split; [apply Hsup; left; reflexivity | exact Hmove].
Defined.





(** The first file of a name goes to category/name.ext, with the
    extension as the source spells it. *)
Example move_first_file :
  fst (move_file sample_file_manager [lit "in"; lit "scan.PDF"]
                 sample_metadata sample_world)
  = Return (Some [lit "sorted"; lit "Invoices"; lit "Acme_Invoice_2024.PDF"]).
Proof. vm_compute. reflexivity. Qed.

(** The second file of the same name gets the counter 1. *)
Example resolve_second_file :
  fst (_resolve_target_path sample_file_manager
         [lit "sorted"; lit "Invoices"] (lit "Acme_Invoice_2024")
         (lit ".pdf") (crowded_world 0))
  = Return [lit "sorted"; lit "Invoices"; lit "Acme_Invoice_2024_1.pdf"].
Proof. vm_compute. reflexivity. Qed.

(** With the counters 1 to 7 taken, the next file gets the counter 8. *)
Example resolve_lowest_free :
  fst (_resolve_target_path sample_file_manager
         [lit "sorted"; lit "Invoices"] (lit "Acme_Invoice_2024")
         (lit ".pdf") (crowded_world 7))
  = Return [lit "sorted"; lit "Invoices"; lit "Acme_Invoice_2024_8.pdf"].
Proof. vm_compute. reflexivity. Qed.

(** With the counters 1 to 1000 taken, the path with the counter 1000 is
    returned although it exists, and the warning is logged. *)
Example resolve_past_the_cap :
  let r := _resolve_target_path sample_file_manager
             [lit "sorted"; lit "Invoices"] (lit "Acme_Invoice_2024")
             (lit ".pdf") (crowded_world 1000) in
  fst r
  = Return [lit "sorted"; lit "Invoices"; lit "Acme_Invoice_2024_1000.pdf"]
  /\ fs_exists (fs (snd r))
       [lit "sorted"; lit "Invoices"; lit "Acme_Invoice_2024_1000.pdf"]
     = true
  /\ In (cap_warning (lit "Acme_Invoice_2024")) (trace (snd r)).
Proof.
  vm_compute. repeat split. right. left. reflexivity.
Qed.

(** The sample PDF loses its third page to the failure of the second. *)
Example pdf_text_stops_at_failure :
  fst (_extract_pdf_text sample_externals sample_extractor
         [lit "in"; lit "scan.PDF"] sample_world)
  = Return (lit "A" ++ [newline]).
Proof. vm_compute. reflexivity. Qed.

(** C3: with the minimum content length set to zero, [extract_content]
    returns the empty text for an existing, supported picture without
    entering the OCR stage: the two records of the run are all that
    happens. *)
Theorem C3_picture_without_ocr :
  is_supported_file [lit "in"; lit "photo.png"] = true
  /\ is_pdf [lit "in"; lit "photo.png"] = false
  /\ fs_is_file (fs sample_world) [lit "in"; lit "photo.png"] = true
  /\ extract_content sample_externals (mkContentExtractor (lit "deu+eng") 0)
                     [lit "in"; lit "photo.png"] sample_world
     = (Return [],
        mkWorld (fs sample_world)
          [Log L_extractor INFO
               (lit "Content extraction completed. Total characters: 0");
           Log L_extractor DEBUG
               (lit "Starting content extraction for: photo.png")])
  /\ ocr_invoked
       (trace (snd (extract_content sample_externals
                      (mkContentExtractor (lit "deu+eng") 0)
                      [lit "in"; lit "photo.png"] sample_world))) = false.
Proof. repeat split; vm_compute; reflexivity. Qed.

(** C6: past the safety limit of the name resolution a document is
    destroyed.  In a target directory where the plain name and the
    counters 1 to 1000 are taken, [process_file] returns [True] for a new
    file of the same classification, and the path with the counter 1000,
    which held a document of its own, holds the new file's content
    afterwards; the document it held is nowhere in the file system. *)
Theorem C6_past_the_cap_a_document_is_lost :
  let p := [lit "in"; lit "new.pdf"] in
  let taken := [lit "s"; lit "I"; lit "A_1000.pdf"] in
  let r := process_file overflow_externals overflow_processor p
                        overflow_world in
  fs_lookup (fs overflow_world) taken = Some (File (lit "document 1000"))
  /\ existsb (holds_content (lit "document 1000")) (fs overflow_world) = true
  /\ fst r = Return true
  /\ fs_lookup (fs (snd r)) taken = Some (File (lit "NEW"))
  /\ existsb (holds_content (lit "document 1000")) (fs (snd r)) = false.
Proof. vm_compute. repeat split. Qed.
